(** * threads-es: the controller side of a worker thread (EsThread.ts)

    A shallow embedding of [src/controller/thread/EsThread.ts].  The
    controller is single threaded: every piece of code below runs to
    completion inside one turn of the event loop, so a turn is a state
    transformer on the thread object, and the event loop is a list of turns.
    Promises live in a heap owned by the thread; [await] splits an async
    function into the part before and the part after the suspension. *)

From stdpp Require Import base option list strings gmap pretty.

Set Default Goal Selector "!".

(** ** Values that cross the channel *)

Abbreviation TaskUID := string (only parsing).

(** Identity of an object that can be moved to the other side
    (an ArrayBuffer, a MessagePort, ...). *)
Abbreviation Transferable := nat (only parsing).

(** Index of a promise object in the heap of the thread. *)
Abbreviation PromiseRef := nat (only parsing).

(** Modelled from the spec: TransferDescriptor.ts is not among the sources.
    A value "explicitly marked for zero-copy transfer" is a descriptor object
    holding the payload [send] and "its accompanying transfer list"
    [transferables]; every other value of type [any] is plain. *)
Inductive JsValue :=
| JsUndefined
| JsNumber (n : Z)
| JsString (s : string)
| JsObject (handle : Transferable)
| JsTransferDescriptor (send : JsValue) (transferables : list Transferable).

Definition isTransferDescriptor (arg : JsValue) : bool :=
  match arg with
  | JsTransferDescriptor _ _ => true
  | _ => false
  end.

Definition descriptorTransferables (arg : JsValue) : list Transferable :=
  match arg with
  | JsTransferDescriptor _ ts => ts
  | _ => []
  end.

Inductive JsError := Error (message : string).

(** ** Messages *)

(** Modelled from the spec: the message types are declared in Messages.ts,
    which is not among the sources.  The records are those of the
    specification, with the fields EsThread.ts writes: [type], [uid],
    [method], [args] and [forceTerminateShared]. *)
Inductive ControllerMessage :=
| Run (uid : TaskUID) (method : string) (args : list JsValue)
| Terminate (forceTerminateShared : option bool).

(** Modelled from the spec: Messages.ts again.  What the worker sends, with
    the fields EsThread.ts reads: [methodNames], [uid], [result] and
    [errorMessage]; [Unrecognized] is a message whose [type] is none of the
    four, which nothing rules out as the data is not validated. *)
Inductive WorkerMessage :=
| Init (methodNames : list string)
| TaskResult (uid : TaskUID) (result : JsValue)
| TaskError (uid : TaskUID) (errorMessage : string)
| UnchaughtError (errorMessage : string)
| Unrecognized (type : string).

(** Modelled from the spec: the enum WorkerMessageType is declared in
    Messages.ts, which is not among the sources; the tags are those of the
    logical message records of the specification. *)
Definition messageType (data : WorkerMessage) : string :=
  match data with
  | Init _ => "init"
  | TaskResult _ _ => "taskResult"
  | TaskError _ _ => "taskError"
  | UnchaughtError _ => "uncaughtError"
  | Unrecognized type => type
  end.

(** What the listeners of the channel are called with. *)
Inductive Event :=
| MessageEvent (data : WorkerMessage)
| PlainEvent.

(** ** The thread object *)

Inductive AbstractWorker := DedicatedWorker | SharedWorker | ServiceWorker.

Record EsThreadOptions := { timeout : N }.

Definition DefaultEsThreadOptions : EsThreadOptions := {| timeout := 10000 |}.

(** Modelled from the spec: the class EsTaskPromise is declared in EsTask.ts,
    which is not among the sources.  It is the TaskHandle of the
    specification, "a future-shaped value exposing its own correlation id
    alongside external resolve/reject entry points"; the promise itself is a
    cell of the heap. *)
Record EsTaskPromise := { taskUID : TaskUID; promiseRef : PromiseRef }.

Inductive PromiseState :=
| Pending
| Fulfilled (value : JsValue)
| Rejected (reason : JsError).

(** One call of [resolve] or [reject] on a task promise. *)
Inductive Settlement := Resolve (value : JsValue) | Reject (reason : JsError).

Definition settledState (s : Settlement) : PromiseState :=
  match s with
  | Resolve v => Fulfilled v
  | Reject e => Rejected e
  end.

(** The promise built by [Promise.all] or [Promise.allSettled] over a
    snapshot of task promises. *)
Inductive Combinator := PromiseAll | PromiseAllSettled.

Inductive Outcome := Waiting | Succeeded | Failed (reason : JsError).

Record Aggregate := {
  combinator : Combinator;
  inputs : list PromiseRef;
  awaiting : list PromiseRef;
  outcome : Outcome
}.

(** A call of [terminate] suspended at [await this.settled()]. *)
Record Termination := {
  awaited : nat;
  forceTerminateShared : option bool;
  finished : bool
}.

(** The closure returned by [createProxyFunction]. *)
Inductive ProxyFunction := Proxy (method : string).

Inductive Listener := InitMessageHandler | TaskResultDispatch.

Global Instance Listener_eq_dec : EqDecision Listener.
Proof. solve_decision. Defined.

(** The promise awaited by [initThread]. *)
Inductive Handshake :=
| HandshakePending
| HandshakeResolved (methodNames : list string)
| HandshakeRejected (reason : JsError).

(** The promise returned by [Spawn]. *)
Inductive Spawned :=
| SpawnPending
| SpawnReturned
| SpawnRejected (reason : JsError).

Record EsThread := mkEsThread {
  worker : AbstractWorker;
  options : EsThreadOptions;
  tasks : gmap string EsTaskPromise;
  methods : gmap string ProxyFunction;
  (* this.interface: its "message" listeners and what was posted to it *)
  listeners : list Listener;
  posted : list (ControllerMessage * list Transferable);
  portStarted : bool;
  portClosed : bool;
  workerTerminated : bool;
  (* ErrorEvents dispatched on the thread itself *)
  errorEvents : list JsError;
  (* promise heap *)
  promises : list PromiseState;
  settlements : list (PromiseRef * Settlement);
  aggregates : list Aggregate;
  terminations : list Termination;
  handshake : Handshake;
  spawned : Spawned
}.

(** [get numQueuedTasks() { return this.tasks.size; }] *)
Definition numQueuedTasks (t : EsThread) : nat := size (tasks t).

Definition channelClosed (t : EsThread) : bool :=
  workerTerminated t || portClosed t.

(** *** Field updates *)

Definition set_tasks (f : gmap string EsTaskPromise → gmap string EsTaskPromise)
    (t : EsThread) : EsThread :=
  {| worker := worker t; options := options t; tasks := f (tasks t);
     methods := methods t; listeners := listeners t; posted := posted t;
     portStarted := portStarted t; portClosed := portClosed t;
     workerTerminated := workerTerminated t; errorEvents := errorEvents t;
     promises := promises t; settlements := settlements t;
     aggregates := aggregates t; terminations := terminations t;
     handshake := handshake t; spawned := spawned t |}.

Definition set_methods (f : gmap string ProxyFunction → gmap string ProxyFunction)
    (t : EsThread) : EsThread :=
  {| worker := worker t; options := options t; tasks := tasks t;
     methods := f (methods t); listeners := listeners t; posted := posted t;
     portStarted := portStarted t; portClosed := portClosed t;
     workerTerminated := workerTerminated t; errorEvents := errorEvents t;
     promises := promises t; settlements := settlements t;
     aggregates := aggregates t; terminations := terminations t;
     handshake := handshake t; spawned := spawned t |}.

Definition set_listeners (f : list Listener → list Listener)
    (t : EsThread) : EsThread :=
  {| worker := worker t; options := options t; tasks := tasks t;
     methods := methods t; listeners := f (listeners t); posted := posted t;
     portStarted := portStarted t; portClosed := portClosed t;
     workerTerminated := workerTerminated t; errorEvents := errorEvents t;
     promises := promises t; settlements := settlements t;
     aggregates := aggregates t; terminations := terminations t;
     handshake := handshake t; spawned := spawned t |}.

Definition set_posted
    (f : list (ControllerMessage * list Transferable) →
         list (ControllerMessage * list Transferable))
    (t : EsThread) : EsThread :=
  {| worker := worker t; options := options t; tasks := tasks t;
     methods := methods t; listeners := listeners t; posted := f (posted t);
     portStarted := portStarted t; portClosed := portClosed t;
     workerTerminated := workerTerminated t; errorEvents := errorEvents t;
     promises := promises t; settlements := settlements t;
     aggregates := aggregates t; terminations := terminations t;
     handshake := handshake t; spawned := spawned t |}.

Definition set_portClosed (b : bool) (t : EsThread) : EsThread :=
  {| worker := worker t; options := options t; tasks := tasks t;
     methods := methods t; listeners := listeners t; posted := posted t;
     portStarted := portStarted t; portClosed := b;
     workerTerminated := workerTerminated t; errorEvents := errorEvents t;
     promises := promises t; settlements := settlements t;
     aggregates := aggregates t; terminations := terminations t;
     handshake := handshake t; spawned := spawned t |}.

Definition set_workerTerminated (b : bool) (t : EsThread) : EsThread :=
  {| worker := worker t; options := options t; tasks := tasks t;
     methods := methods t; listeners := listeners t; posted := posted t;
     portStarted := portStarted t; portClosed := portClosed t;
     workerTerminated := b; errorEvents := errorEvents t;
     promises := promises t; settlements := settlements t;
     aggregates := aggregates t; terminations := terminations t;
     handshake := handshake t; spawned := spawned t |}.

Definition set_errorEvents (f : list JsError → list JsError)
    (t : EsThread) : EsThread :=
  {| worker := worker t; options := options t; tasks := tasks t;
     methods := methods t; listeners := listeners t; posted := posted t;
     portStarted := portStarted t; portClosed := portClosed t;
     workerTerminated := workerTerminated t; errorEvents := f (errorEvents t);
     promises := promises t; settlements := settlements t;
     aggregates := aggregates t; terminations := terminations t;
     handshake := handshake t; spawned := spawned t |}.

(** The promise heap changes as a whole: cells, settlement log and the
    aggregates that react to a settlement. *)
Definition set_heap (ps : list PromiseState)
    (log : list (PromiseRef * Settlement)) (aggs : list Aggregate)
    (t : EsThread) : EsThread :=
  {| worker := worker t; options := options t; tasks := tasks t;
     methods := methods t; listeners := listeners t; posted := posted t;
     portStarted := portStarted t; portClosed := portClosed t;
     workerTerminated := workerTerminated t; errorEvents := errorEvents t;
     promises := ps; settlements := log;
     aggregates := aggs; terminations := terminations t;
     handshake := handshake t; spawned := spawned t |}.

Definition set_terminations (f : list Termination → list Termination)
    (t : EsThread) : EsThread :=
  {| worker := worker t; options := options t; tasks := tasks t;
     methods := methods t; listeners := listeners t; posted := posted t;
     portStarted := portStarted t; portClosed := portClosed t;
     workerTerminated := workerTerminated t; errorEvents := errorEvents t;
     promises := promises t; settlements := settlements t;
     aggregates := aggregates t; terminations := f (terminations t);
     handshake := handshake t; spawned := spawned t |}.

Definition set_handshake (h : Handshake) (t : EsThread) : EsThread :=
  {| worker := worker t; options := options t; tasks := tasks t;
     methods := methods t; listeners := listeners t; posted := posted t;
     portStarted := portStarted t; portClosed := portClosed t;
     workerTerminated := workerTerminated t; errorEvents := errorEvents t;
     promises := promises t; settlements := settlements t;
     aggregates := aggregates t; terminations := terminations t;
     handshake := h; spawned := spawned t |}.

Definition set_spawned (s : Spawned) (t : EsThread) : EsThread :=
  {| worker := worker t; options := options t; tasks := tasks t;
     methods := methods t; listeners := listeners t; posted := posted t;
     portStarted := portStarted t; portClosed := portClosed t;
     workerTerminated := workerTerminated t; errorEvents := errorEvents t;
     promises := promises t; settlements := settlements t;
     aggregates := aggregates t; terminations := terminations t;
     handshake := handshake t; spawned := s |}.

(** ** Code that runs inside one turn

    A computation reads and updates the thread and either completes with a
    value or throws. *)

Inductive Completion (A : Type) :=
| Normal (a : A)
| Throw (e : JsError).
Arguments Normal {A} a.
Arguments Throw {A} e.

Definition Js (A : Type) : Type := EsThread → Completion A * EsThread.

Definition ret {A} (a : A) : Js A := λ t, (Normal a, t).

Definition bind {A B} (m : Js A) (k : A → Js B) : Js B :=
  λ t, match m t with
       | (Normal a, t') => k a t'
       | (Throw e, t') => (Throw e, t')
       end.

Definition throw {A} (e : JsError) : Js A := λ t, (Throw e, t).

Definition try_catch {A} (body : Js A) (handler : JsError → Js A) : Js A :=
  λ t, match body t with
       | (Normal a, t') => (Normal a, t')
       | (Throw e, t') => handler e t'
       end.

Definition read {A} (f : EsThread → A) : Js A := λ t, (Normal (f t), t).

Definition update (f : EsThread → EsThread) : Js unit := λ t, (Normal tt, f t).

Definition exec {A} (m : Js A) (t : EsThread) : EsThread := snd (m t).

Global Instance Js_ret : MRet Js := @ret.
Global Instance Js_bind : MBind Js := λ A B k m, bind m k.

(** ** prepareArguments *)

(** One iteration of the [for (const arg of rawArgs)] loop; the accumulator
    is the pair of arrays [args], [transferables]. *)
Definition prepareArguments_step
    (acc : list JsValue * list Transferable) (arg : JsValue)
    : list JsValue * list Transferable :=
  let '(args, transferables) := acc in
  if isTransferDescriptor arg
  then (args ++ [arg], transferables ++ descriptorTransferables arg)
  else (args ++ [arg], transferables).

Definition prepareArguments (rawArgs : list JsValue)
    : list JsValue * list Transferable :=
  fold_left prepareArguments_step rawArgs ([], []).

(** ** Primitive operations on the thread *)

(** Modelled from the spec: [assertMessageEvent] is declared in Messages.ts,
    which is not among the sources.  It lets a message event through and
    throws on any other event. *)
Definition assertMessageEvent (evt : Event) : Js WorkerMessage :=
  match evt with
  | MessageEvent data => ret data
  | PlainEvent => throw (Error "Not a MessageEvent")
  end.

(** [this.tasks.get(uid)] *)
Definition tasks_get (uid : TaskUID) : Js (option EsTaskPromise) :=
  read (λ t, tasks t !! uid).

(** [this.tasks.delete(uid)] *)
Definition tasks_delete (uid : TaskUID) : Js unit :=
  update (set_tasks (delete uid)).

(** [this.tasks.set(uid, task)] *)
Definition tasks_set (uid : TaskUID) (task : EsTaskPromise) : Js unit :=
  update (set_tasks (insert uid task)).

(** [this.interface.postMessage(message, transfer)] *)
Definition postMessage (message : ControllerMessage)
    (transfer : list Transferable) : Js unit :=
  update (set_posted (λ log, log ++ [(message, transfer)])).

(** [this.interface.addEventListener("message", l)]: a listener that is
    already registered is not registered twice. *)
Definition addEventListener (l : Listener) : Js unit :=
  update (set_listeners (λ ls, if decide (l ∈ ls) then ls else ls ++ [l])).

(** [this.interface.removeEventListener("message", l)] *)
Definition removeEventListener (l : Listener) : Js unit :=
  update (set_listeners (filter (λ l', l' ≠ l))).

(** [this.dispatchEvent(new ErrorEvent("error", {error: e}))] *)
Definition dispatchErrorEvent (e : JsError) : Js unit :=
  update (set_errorEvents (λ log, log ++ [e])).

(** [worker.terminate()] on a dedicated worker, [worker.port.close()] on a
    shared one; [assert(worker instanceof SharedWorker)] throws otherwise. *)
Definition closeChannel : Js unit :=
  w ← read worker;
  match w with
  | DedicatedWorker => update (set_workerTerminated true)
  | SharedWorker => update (set_portClosed true)
  | ServiceWorker => throw (Error "Assertion failed")
  end.

(** ** The promise heap *)

(** Modelled from the spec: the constructor of EsTaskPromise (EsTask.ts) and
    [getRandomUID] (Utils.ts) are not among the sources.
    [new EsTaskPromise()] is a fresh pending promise with a correlation id;
    [uid] is the id the generator returned for it. *)
Definition newEsTaskPromise (uid : TaskUID) : Js EsTaskPromise :=
  λ t, (Normal {| taskUID := uid; promiseRef := length (promises t) |},
        set_heap (promises t ++ [Pending]) (settlements t) (aggregates t) t).

(** How [Promise.all] and [Promise.allSettled] react when one of the promises
    they still wait for settles: [all] fails on a rejection, [allSettled]
    counts it like a fulfilment; both succeed when nothing is left. *)
Definition react (r : PromiseRef) (s : Settlement) (a : Aggregate) : Aggregate :=
  if decide (r ∈ awaiting a) then
    let rest := filter (λ r', r' ≠ r) (awaiting a) in
    match s, combinator a with
    | Reject e, PromiseAll =>
        {| combinator := combinator a; inputs := inputs a; awaiting := rest;
           outcome := match outcome a with Waiting => Failed e | o => o end |}
    | _, _ =>
        {| combinator := combinator a; inputs := inputs a; awaiting := rest;
           outcome := match outcome a with
                      | Waiting => if rest is [] then Succeeded else Waiting
                      | o => o
                      end |}
    end
  else a.

(** Modelled from the spec: [resolve] and [reject] of EsTaskPromise
    (EsTask.ts, not among the sources) are the "external resolve/reject entry
    points" of the promise.  As for any promise, only a pending one changes
    state; every call is recorded in [settlements]. *)
Definition settle (task : EsTaskPromise) (s : Settlement) : Js unit :=
  λ t, let r := promiseRef task in
       let log := settlements t ++ [(r, s)] in
       match promises t !! r with
       | Some Pending =>
           (Normal tt, set_heap (<[r := settledState s]> (promises t)) log
                                (react r s <$> aggregates t) t)
       | _ => (Normal tt, set_heap (promises t) log (aggregates t) t)
       end.

Definition task_resolve (task : EsTaskPromise) (result : JsValue) : Js unit :=
  settle task (Resolve result).

Definition task_reject (task : EsTaskPromise) (e : JsError) : Js unit :=
  settle task (Reject e).

Definition rejectionOf (heap : list PromiseState) (r : PromiseRef)
    : option JsError :=
  match heap !! r with
  | Some (Rejected e) => Some e
  | _ => None
  end.

Definition isPending (heap : list PromiseState) (r : PromiseRef) : bool :=
  match heap !! r with
  | Some Pending => true
  | _ => false
  end.

(** The combinator applied to promises in any state. *)
Definition newAggregate (c : Combinator) (ins : list PromiseRef)
    (heap : list PromiseState) : Aggregate :=
  let waiting := filter (λ r, isPending heap r = true) ins in
  {| combinator := c; inputs := ins; awaiting := waiting;
     outcome := match c, head (omap (rejectionOf heap) ins) with
                | PromiseAll, Some e => Failed e
                | _, _ => if waiting is [] then Succeeded else Waiting
                end |}.

(** [this.tasks.values()] *)
Definition taskValues (t : EsThread) : list EsTaskPromise :=
  (map_to_list (tasks t)).*2.

Definition promiseCombinator (c : Combinator) : Js nat :=
  λ t, (Normal (length (aggregates t)),
        set_heap (promises t) (settlements t)
          (aggregates t ++
             [newAggregate c (promiseRef <$> taskValues t) (promises t)]) t).

(** ** Methods of EsThread *)

(** [async settled() { await Promise.allSettled(this.tasks.values()); }]
    The promise returned settles as the combinator does; the result is its
    index in [aggregates]. *)
Definition settled : Js nat := promiseCombinator PromiseAllSettled.

(** [async resolved() { await Promise.all(this.tasks.values()); }] *)
Definition resolved : Js nat := promiseCombinator PromiseAll.

Definition outcomeOf (t : EsThread) (k : nat) : option Outcome :=
  outcome <$> aggregates t !! k.

(** [terminate], up to [await this.settled()]; the result is the index of
    the suspended call in [terminations]. *)
Definition terminate (force : option bool) : Js nat :=
  k ← settled;
  i ← read (λ t, length (terminations t));
  update (set_terminations (λ fs, fs ++
    [{| awaited := k; forceTerminateShared := force; finished := false |}]));;
  ret i.

Definition finish (f : Termination) : Termination :=
  {| awaited := awaited f; forceTerminateShared := forceTerminateShared f;
     finished := true |}.

(** [terminate], after the [await]: runs once, when the awaited promise has
    settled. *)
Definition terminate_resume (i : nat) : Js unit :=
  fs ← read terminations;
  match fs !! i with
  | None => ret tt
  | Some f =>
      if finished f then ret tt else
      o ← read (λ t, outcomeOf t (awaited f));
      match o with
      | Some Succeeded =>
          update (set_terminations (alter finish i));;
          postMessage (Terminate (forceTerminateShared f)) [];;
          removeEventListener TaskResultDispatch;;
          closeChannel
      | Some (Failed e) =>
          update (set_terminations (alter finish i));;
          throw e
      | _ => ret tt
      end
  end.

(** The listener installed after the handshake. *)
Definition taskResultDispatch (evt : Event) : Js unit :=
  try_catch
    (data ← assertMessageEvent evt;
     match data with
     | TaskResult uid result =>
         task ← tasks_get uid;
         match task with
         | None =>
             throw (Error ("Recived result for invalid task with UID " +:+ uid))
         | Some task =>
             tasks_delete (taskUID task);;
             task_resolve task result
         end
     | TaskError uid errorMessage =>
         task ← tasks_get uid;
         match task with
         | None =>
             throw (Error ("Recived error for invalid task with UID " +:+ uid))
         | Some task =>
             tasks_delete (taskUID task);;
             task_reject task (Error errorMessage)
         end
     | UnchaughtError errorMessage =>
         throw (Error ("Uncaught error in worker: " +:+ errorMessage))
     | _ =>
         throw (Error ("Recieved unexpected WorkerMessage of type: "
                       +:+ messageType data))
     end)
    (λ e, dispatchErrorEvent e).

(** The body of the closure built by [createProxyFunction(method)]. *)
Definition callProxy (p : ProxyFunction) (rawArgs : list JsValue)
    (uid : TaskUID) : Js EsTaskPromise :=
  let 'Proxy method := p in
  taskPromise ← newEsTaskPromise uid;
  let '(args, transferables) := prepareArguments rawArgs in
  let runMessage := Run (taskUID taskPromise) method args in
  tasks_set (taskUID taskPromise) taskPromise;;
  postMessage runMessage transferables;;
  ret taskPromise.

Definition createProxyFunction (method : string) : ProxyFunction := Proxy method.

Fixpoint createMethodsProxy (methodNames : list string) : Js unit :=
  match methodNames with
  | [] => ret tt
  | methodName :: rest =>
      update (set_methods (insert methodName (createProxyFunction methodName)));;
      createMethodsProxy rest
  end.

(** [thread.methods[name](...rawArgs)] *)
Definition invoke (name : string) (rawArgs : list JsValue) (uid : TaskUID)
    : Js EsTaskPromise :=
  ms ← read methods;
  match ms !! name with
  | Some p => callProxy p rawArgs uid
  | None => throw (Error (name +:+ " is not a function"))
  end.

(** ** Spawn and the handshake *)

(** The promise of the handshake settles once. *)
Definition settleHandshake (h : Handshake) : Js unit :=
  update (λ t, match handshake t with
               | HandshakePending => set_handshake h t
               | _ => t
               end).

(** The listener installed by [initThread] while it waits for Init.  It is
    not wrapped in a try: what [assertMessageEvent] throws leaves it. *)
Definition initMessageHandler (event : Event) : Js unit :=
  data ← assertMessageEvent event;
  match data with
  | Init methodNames =>
      removeEventListener InitMessageHandler;;
      settleHandshake (HandshakeResolved methodNames)
  | UnchaughtError errorMessage =>
      removeEventListener InitMessageHandler;;
      settleHandshake (HandshakeRejected (Error errorMessage))
  | _ =>
      removeEventListener InitMessageHandler;;
      settleHandshake (HandshakeRejected
        (Error ("Recieved unexpected WorkerMessage of type: "
                +:+ messageType data)))
  end.

Definition timeoutMessage (ms : N) : string :=
  "Timeout: Did not receive an init message from worker after "
  +:+ pretty ms +:+ "ms".

(** Modelled from the spec: [withTimeout] is declared in Utils.ts, which is
    not among the sources.  It is the "generic wait with timeout utility":
    when the bound elapses before the promise it wraps has settled, it
    rejects with an error carrying the given message. *)
Definition withTimeout_elapsed : Js unit :=
  ms ← read (λ t, timeout (options t));
  settleHandshake (HandshakeRejected (Error (timeoutMessage ms))).

(** The object before the body of the constructor runs; [threadOptions] is
    a partial record, [None] when it does not set [timeout]. *)
Definition fieldInitializers (w : AbstractWorker) (threadOptions : option N)
    : EsThread :=
  {| worker := w;
     options := {| timeout := default (timeout DefaultEsThreadOptions)
                                      threadOptions |};
     tasks := ∅; methods := ∅; listeners := []; posted := [];
     portStarted := false; portClosed := false; workerTerminated := false;
     errorEvents := []; promises := []; settlements := [];
     aggregates := []; terminations := [];
     handshake := HandshakePending; spawned := SpawnPending |}.

(** [new EsThread(worker, threadOptions)] *)
Definition newEsThread (w : AbstractWorker) (threadOptions : option N)
    : Completion EsThread :=
  let t := fieldInitializers w threadOptions in
  match w with
  | ServiceWorker => Throw (Error "ServiceWorker currently not supported.")
  | DedicatedWorker => Normal t
  | SharedWorker =>
      Normal {| worker := worker t; options := options t; tasks := tasks t;
                methods := methods t; listeners := listeners t;
                posted := posted t; portStarted := true;
                portClosed := portClosed t;
                workerTerminated := workerTerminated t;
                errorEvents := errorEvents t; promises := promises t;
                settlements := settlements t; aggregates := aggregates t;
                terminations := terminations t; handshake := handshake t;
                spawned := spawned t |}
  end.

(** [initThread] up to its [await]: the handshake promise is created and the
    init listener installed. *)
Definition initThread_start : Js unit := addEventListener InitMessageHandler.

(** [initThread] after its [await]; it runs as soon as the handshake promise
    has settled, in the same turn. *)
Definition initThread_resume : Js unit :=
  s ← read spawned;
  match s with
  | SpawnPending =>
      h ← read handshake;
      match h with
      | HandshakePending => ret tt
      | HandshakeRejected e =>
          try_catch
            (closeChannel;; update (set_spawned (SpawnRejected e)))
            (λ e', update (set_spawned (SpawnRejected e')))
      | HandshakeResolved methodNames =>
          createMethodsProxy methodNames;;
          addEventListener TaskResultDispatch;;
          update (set_spawned SpawnReturned)
      end
  | _ => ret tt
  end.

(** [EsThread.Spawn(worker, threadOptions)] up to the first suspension: the
    thread whose handshake is under way, or what the constructor threw. *)
Definition Spawn (w : AbstractWorker) (threadOptions : option N)
    : Completion EsThread :=
  match newEsThread w threadOptions with
  | Normal t => Normal (exec initThread_start t)
  | Throw e => Throw e
  end.

(** ** The event loop *)

Definition runListener (l : Listener) (evt : Event) : Js unit :=
  match l with
  | InitMessageHandler => initMessageHandler evt
  | TaskResultDispatch => taskResultDispatch evt
  end.

(** A "message" event on the channel: every listener registered when the
    event fires is called; an exception leaving a listener is reported to the
    global scope and does not stop the others. *)
Definition dispatch (evt : Event) (t : EsThread) : EsThread :=
  foldl (λ t' l, exec (runListener l evt) t') t (listeners t).

(** What the event loop runs, one turn at a time: an event of the channel,
    the timer of the handshake, a call made by whoever holds the thread
    ([uid] being what [getRandomUID()] yields in a proxy call), or the
    resumption of the [i]-th call of [terminate] at its [await], which has no
    effect before the awaited promise has settled.  Turns come in any order:
    what holds for every list of turns holds however the calls, the messages
    and the resumptions interleave. *)
Inductive Turn :=
| Deliver (evt : Event)
| TimerFired
| Invoke (name : string) (rawArgs : list JsValue) (uid : TaskUID)
| CallSettled
| CallResolved
| CallTerminate (force : option bool)
| Resume (i : nat).

(** The caller holds the thread only once [Spawn] has returned it. *)
Definition whenReturned (f : EsThread → EsThread) (t : EsThread) : EsThread :=
  match spawned t with
  | SpawnReturned => f t
  | _ => t
  end.

Definition turn (e : Turn) (t : EsThread) : EsThread :=
  match e with
  | Deliver evt => exec initThread_resume (dispatch evt t)
  | TimerFired => exec initThread_resume (exec withTimeout_elapsed t)
  | Invoke name rawArgs uid => whenReturned (exec (invoke name rawArgs uid)) t
  | CallSettled => whenReturned (exec settled) t
  | CallResolved => whenReturned (exec resolved) t
  | CallTerminate force => whenReturned (exec (terminate force)) t
  | Resume i => whenReturned (exec (terminate_resume i)) t
  end.

Definition run (es : list Turn) (t : EsThread) : EsThread :=
  foldl (λ t' e, turn e t') t es.

(** The threads the code can produce. *)
Definition reachable (t : EsThread) : Prop :=
  ∃ w threadOptions t0 es,
    Spawn w threadOptions = Normal t0 ∧ t = run es t0.

(** * The pool *)

(** Modelled from the spec: EsThreadPool.ts is not among the sources (its
    tests are).  The options of a pool are [size] and [name], here
    [poolSize] and [poolName]. *)
Record EsThreadPoolOptions := { poolSize : nat; poolName : string }.

(** Modelled from the spec: the pool is "a fixed-size ordered collection of
    Threads", index = spawn order.  It also keeps, for every call of its
    [settled()], the promise that [settled()] of each member returned. *)
Record EsThreadPool := {
  threads : list EsThread;
  poolOptions : EsThreadPoolOptions;
  settledCalls : list (list nat)
}.

(** Modelled from the spec: the callback given to [queue] "receives a Thread"
    and is run synchronously; what it does to the thread is the list of calls
    it makes on it, in order. *)
Abbreviation Callback := (list Turn) (only parsing).

(** The callback [worker => worker.methods[name](...rawArgs)] of the tests. *)
Definition invoking (name : string) (rawArgs : list JsValue) (uid : TaskUID)
    : list Turn :=
  [Invoke name rawArgs uid].

(** Modelled from the spec: "selects the Thread with the fewest currently
    pending tasks, breaking ties by lowest spawn index".  A scan from the
    left that replaces the candidate only by a strictly smaller load. *)
Fixpoint leastLoadedFrom (best bestLoad i : nat) (ts : list EsThread) : nat :=
  match ts with
  | [] => best
  | t :: rest =>
      if decide (numQueuedTasks t < bestLoad)
      then leastLoadedFrom i (numQueuedTasks t) (S i) rest
      else leastLoadedFrom best bestLoad (S i) rest
  end.

Definition leastLoaded (ts : list EsThread) : option nat :=
  match ts with
  | [] => None
  | t :: rest => Some (leastLoadedFrom 0 (numQueuedTasks t) 1 rest)
  end.

Definition set_threads (f : list EsThread → list EsThread)
    (pool : EsThreadPool) : EsThreadPool :=
  {| threads := f (threads pool); poolOptions := poolOptions pool;
     settledCalls := settledCalls pool |}.

(** Modelled from the spec: [queue(task)] "selects the Thread ... and
    invokes the callback with that Thread synchronously".  The result is the
    index of the selected Thread. *)
Definition queue (cb : list Turn) (pool : EsThreadPool)
    : option nat * EsThreadPool :=
  match leastLoaded (threads pool) with
  | Some i => (Some i, set_threads (alter (run cb) i) pool)
  | None => (None, pool)
  end.

(** Modelled from the spec: "[settled()] is the conjunction (wait for all) of
    every member's [settled()]".  Every member's [settled()] is called; the
    call is recorded with the promises they returned. *)
Definition poolSettled (pool : EsThreadPool) : EsThreadPool :=
  {| threads := turn CallSettled <$> threads pool;
     poolOptions := poolOptions pool;
     settledCalls := settledCalls pool
                     ++ [(λ t, length (aggregates t)) <$> threads pool] |}.

(** Modelled from the spec: the promise of the [k]-th call of
    [pool.settled()] has resolved when the promise of every member has. *)
Definition poolSettledResolved (pool : EsThreadPool) (k : nat) : Prop :=
  ∃ w, settledCalls pool !! k = Some w
       ∧ Forall2 (λ t j, outcomeOf t j = Some Succeeded) (threads pool) w.

(** Modelled from the spec: "[terminate()] calls every member's
    [terminate()]". *)
Definition poolTerminate (pool : EsThreadPool) : EsThreadPool :=
  set_threads (fmap (turn (CallTerminate None))) pool.

Definition isReturned (t : EsThread) : bool :=
  match spawned t with
  | SpawnReturned => true
  | _ => false
  end.

(** Modelled from the spec: [Spawn(threadFactory, options)] "invokes
    [threadFactory(index)] exactly [options.size] times, indices 0..size-1,
    awaiting each resulting Thread's own handshake"; [threadFactory i] is the
    thread as its own [Spawn] left it, and the pool is ready when every one
    of them was returned. *)
Definition poolSpawn (threadFactory : nat → EsThread)
    (opts : EsThreadPoolOptions) : Completion EsThreadPool :=
  let ts := threadFactory <$> seq 0 (poolSize opts) in
  match list_find (λ t, isReturned t = false) ts with
  | Some (_, t) =>
      Throw (match spawned t with
             | SpawnRejected e => e
             | _ => Error "handshake pending"
             end)
  | None => Normal {| threads := ts; poolOptions := opts; settledCalls := [] |}
  end.

(** Modelled from the spec: what happens to a pool is something that
    concerns one member (a message of its worker, a resumption, a call on the
    thread itself) or a call on the pool. *)
Inductive PoolTurn :=
| Member (i : nat) (e : Turn)
| Queue (cb : list Turn)
| PoolSettled
| PoolTerminate.

Definition poolTurn (e : PoolTurn) (pool : EsThreadPool) : EsThreadPool :=
  match e with
  | Member i e' => set_threads (alter (turn e') i) pool
  | Queue cb => (queue cb pool).2
  | PoolSettled => poolSettled pool
  | PoolTerminate => poolTerminate pool
  end.

Definition poolRun (es : list PoolTurn) (pool : EsThreadPool) : EsThreadPool :=
  foldl (λ pool' e, poolTurn e pool') pool es.

(** The members of a pool are threads the code produces, all returned by
    their [Spawn]. *)
Definition poolMembers (pool : EsThreadPool) : Prop :=
  Forall (λ t, reachable t ∧ spawned t = SpawnReturned) (threads pool).

(** The indices selected by consecutive calls of [queue]. *)
Fixpoint queueAll (cbs : list (list Turn)) (pool : EsThreadPool)
    : list (option nat) * EsThreadPool :=
  match cbs with
  | [] => ([], pool)
  | cb :: rest =>
      let '(i, pool') := queue cb pool in
      let '(selected, pool'') := queueAll rest pool' in
      (i :: selected, pool'')
  end.

(** * Vocabulary of the properties

    Invariants, observations on the thread and on the pool, and the concrete
    threads and pools the properties are tried on. *)

(** ** Arguments *)

(** The transfer lists of the arguments that are descriptors, one after the
    other in argument order. *)
Definition transferList (rawArgs : list JsValue) : list Transferable :=
  mjoin (descriptorTransferables <$>
           filter (λ arg, isTransferDescriptor arg = true) rawArgs).

(** How many descriptors wrap a value. *)
Fixpoint depth (v : JsValue) : nat :=
  match v with
  | JsTransferDescriptor send _ => S (depth send)
  | _ => 0
  end.

(** ** Invariants *)

(** The promises [resolve] or [reject] was called on, in the order of the
    calls. *)
Definition logged (t : EsThread) : list PromiseRef := (settlements t).*1.

(** The reason carried by a call, when it rejects one of the promises
    [ins]. *)
Definition rejectionIn (ins : list PromiseRef) (entry : PromiseRef * Settlement)
    : option JsError :=
  match entry.2 with
  | Reject e => if decide (entry.1 ∈ ins) then Some e else None
  | Resolve _ => None
  end.

(** The reason of the first rejection, in the order of the calls, among the
    promises [ins]. *)
Definition firstRejection (ins : list PromiseRef)
    (log : list (PromiseRef * Settlement)) : option JsError :=
  head (omap (rejectionIn ins) log).

(** Those of [ins] that have not settled. *)
Definition stillPending (heap : list PromiseState) (ins : list PromiseRef)
    : list PromiseRef :=
  filter (λ r, isPending heap r = true) ins.

(** What a combinator over [ins] shows, as a function of the heap and of the
    settlement log. *)
Definition expectedOutcome (c : Combinator) (ins : list PromiseRef)
    (heap : list PromiseState) (log : list (PromiseRef * Settlement))
    : Outcome :=
  match c, firstRejection ins log with
  | PromiseAll, Some e => Failed e
  | _, _ => if stillPending heap ins is [] then Succeeded else Waiting
  end.

(** A combinator waits for the promises it was built over that are pending,
    and shows what the heap and the log make it show. *)
Record AggregateInv (heap : list PromiseState)
    (log : list (PromiseRef * Settlement)) (a : Aggregate) : Prop := {
  agg_valid : ∀ r, r ∈ inputs a → r < length heap;
  agg_awaiting : awaiting a = stillPending heap (inputs a);
  agg_outcome : outcome a = expectedOutcome (combinator a) (inputs a) heap log
}.

(** A call of [terminate] awaits an [allSettled], and is past its [await]
    only if that has succeeded. *)
Definition TerminationInv (aggs : list Aggregate) (f : Termination) : Prop :=
  ∃ a, aggs !! awaited f = Some a
       ∧ combinator a = PromiseAllSettled
       ∧ (finished f = true → outcome a = Succeeded).

(** The pending mapping and the heap: an entry is filed under the UID of its
    task, its promise is pending, no two entries share a promise; the heap is
    what the log says, and no promise was settled twice. *)
Record HeapInv (t : EsThread) : Prop := {
  inv_key : ∀ uid task, tasks t !! uid = Some task → taskUID task = uid;
  inv_pending : ∀ uid task,
    tasks t !! uid = Some task → promises t !! promiseRef task = Some Pending;
  inv_inj : ∀ u1 u2 a b,
    tasks t !! u1 = Some a → tasks t !! u2 = Some b →
    promiseRef a = promiseRef b → u1 = u2;
  inv_log : ∀ r s,
    (r, s) ∈ settlements t → promises t !! r = Some (settledState s);
  inv_heap : ∀ r st,
    promises t !! r = Some st → st = Pending ∨ ∃ s, (r, s) ∈ settlements t;
  inv_nodup : NoDup (logged t);
  inv_aggs : Forall (AggregateInv (promises t) (settlements t)) (aggregates t);
  inv_terms : Forall (TerminationInv (aggregates t)) (terminations t)
}.

(** The error [taskResultDispatch] throws into its own [catch], if any. *)
Definition faultOf (t : EsThread) (evt : Event) : option JsError :=
  match evt with
  | PlainEvent => Some (Error "Not a MessageEvent")
  | MessageEvent (TaskResult uid _) =>
      match tasks t !! uid with
      | Some _ => None
      | None => Some (Error ("Recived result for invalid task with UID " +:+ uid))
      end
  | MessageEvent (TaskError uid _) =>
      match tasks t !! uid with
      | Some _ => None
      | None => Some (Error ("Recived error for invalid task with UID " +:+ uid))
      end
  | MessageEvent (UnchaughtError errorMessage) =>
      Some (Error ("Uncaught error in worker: " +:+ errorMessage))
  | MessageEvent data =>
      Some (Error ("Recieved unexpected WorkerMessage of type: "
                   +:+ messageType data))
  end.

(** The settlement a message asks for. *)
Definition settlementOf (data : WorkerMessage) : option (TaskUID * Settlement) :=
  match data with
  | TaskResult uid result => Some (uid, Resolve result)
  | TaskError uid errorMessage => Some (uid, Reject (Error errorMessage))
  | _ => None
  end.

(** The thread after the statements of [terminate] that follow its [await]. *)
Definition terminateTail (i : nat) (f : Termination) (t : EsThread) : EsThread :=
  exec closeChannel
    (set_listeners (filter (λ l, l ≠ TaskResultDispatch))
       (set_posted (λ log, log ++ [(Terminate (forceTerminateShared f), [])])
          (set_terminations (alter finish i) t))).

(** [this.methods] after the loop of [createMethodsProxy]. *)
Definition installProxies (names : list string)
    (ms : gmap string ProxyFunction) : gmap string ProxyFunction :=
  foldl (λ ms' name, <[name := createProxyFunction name]> ms') ms names.

(** Every announced name has its proxy, and nothing else is callable. *)
Definition proxiesFor (names : list string)
    (ms : gmap string ProxyFunction) : Prop :=
  ∀ name, ms !! name
          = if decide (name ∈ names) then Some (createProxyFunction name)
            else None.

(** The close that fits the kind of worker was performed. *)
Definition tornDown (t : EsThread) : Prop :=
  match worker t with
  | DedicatedWorker => workerTerminated t = true
  | SharedWorker => portClosed t = true
  | ServiceWorker => False
  end.

(** Some call of [terminate] is past its [await]. *)
Definition someFinished (t : EsThread) : Prop :=
  ∃ i f, terminations t !! i = Some f ∧ finished f = true.

(** The life cycle: while [Spawn] is pending the init listener is the only
    one and nothing is installed or closed; a returned thread has its proxies
    and at most the result listener, and is closed only by [terminate]; a
    rejected [Spawn] left the channel closed. *)
Definition LifeInv (t : EsThread) : Prop :=
  worker t ≠ ServiceWorker ∧
  match spawned t with
  | SpawnPending =>
      handshake t = HandshakePending
      ∧ listeners t = [InitMessageHandler]
      ∧ methods t = ∅
      ∧ channelClosed t = false
  | SpawnReturned =>
      (∃ names, handshake t = HandshakeResolved names
                ∧ proxiesFor names (methods t))
      ∧ (listeners t = [TaskResultDispatch] ∨ listeners t = [])
      ∧ (channelClosed t = true → someFinished t)
  | SpawnRejected e =>
      handshake t = HandshakeRejected e
      ∧ tornDown t
      ∧ methods t = ∅
      ∧ (listeners t = [InitMessageHandler] ∨ listeners t = [])
  end.

Definition Inv (t : EsThread) : Prop := HeapInv t ∧ LifeInv t.

(** How the init listener settles the handshake on a message. *)
Definition handshakeVerdict (data : WorkerMessage) : Handshake :=
  match data with
  | Init methodNames => HandshakeResolved methodNames
  | UnchaughtError errorMessage => HandshakeRejected (Error errorMessage)
  | _ => HandshakeRejected
           (Error ("Recieved unexpected WorkerMessage of type: "
                   +:+ messageType data))
  end.

(** ** The effect of a turn *)

Definition sameHeap (t t' : EsThread) : Prop :=
  tasks t' = tasks t ∧ promises t' = promises t
  ∧ settlements t' = settlements t ∧ aggregates t' = aggregates t
  ∧ terminations t' = terminations t.

(** What a turn does to a thread that satisfies the invariants: nothing to
    the mapping and the heap, or the one operation it stands for. *)
Inductive TurnEffect (t : EsThread) : Turn → EsThread → Prop :=
| effect_none e t' :
    sameHeap t t' → (spawned t ≠ SpawnPending → spawned t' = spawned t) →
    TurnEffect t e t'
| effect_dispatch evt :
    TaskResultDispatch ∈ listeners t →
    TurnEffect t (Deliver evt) (exec (taskResultDispatch evt) t)
| effect_invoke name method rawArgs uid :
    methods t !! name = Some (Proxy method) →
    TurnEffect t (Invoke name rawArgs uid)
      (exec (callProxy (Proxy method) rawArgs uid) t)
| effect_settled :
    TurnEffect t CallSettled (exec (promiseCombinator PromiseAllSettled) t)
| effect_resolved :
    TurnEffect t CallResolved (exec (promiseCombinator PromiseAll) t)
| effect_terminate force :
    TurnEffect t (CallTerminate force) (exec (terminate force) t)
| effect_resume i f :
    terminations t !! i = Some f → finished f = false →
    outcomeOf t (awaited f) = Some Succeeded →
    TurnEffect t (Resume i) (terminateTail i f t).

(** What never goes away: calls already logged, combinators already built
    (with the promises they were built over) and calls of [terminate]. *)
Record Grows (t t' : EsThread) : Prop := {
  grows_log : settlements t `prefix_of` settlements t';
  grows_aggs : ∀ k a, aggregates t !! k = Some a →
    ∃ a', aggregates t' !! k = Some a'
          ∧ combinator a' = combinator a ∧ inputs a' = inputs a;
  grows_terms : ∀ i f, terminations t !! i = Some f →
    ∃ f', terminations t' !! i = Some f'
          ∧ awaited f' = awaited f
          ∧ forceTerminateShared f' = forceTerminateShared f
          ∧ (finished f = true → finished f' = true)
}.

(** ** Concrete threads *)

(** A dedicated worker whose handshake is under way. *)
Definition handshakingThread : EsThread :=
  exec initThread_start (fieldInitializers DedicatedWorker None).

(** The same after the worker announced two methods. *)
Definition readyThread : EsThread :=
  run [Deliver (MessageEvent (Init ["helloWorld"; "takesTime"]))]
      handshakingThread.

(** One call of [takesTime] is outstanding. *)
Definition busyThread : EsThread :=
  run [Invoke "takesTime" [JsNumber 250] "uid-1"] readyThread.

(** ** Observations *)

(** The messages that settle nothing. *)
Definition channelFault (t : EsThread) (evt : Event) : Prop :=
  match evt with
  | MessageEvent (TaskResult uid _) => tasks t !! uid = None
  | MessageEvent (TaskError uid _) => tasks t !! uid = None
  | _ => True
  end.


(** What one call of [terminate] on [t] amounts to, [t1] being the thread
    when the call returns its promise and [t2] the thread later on. *)
Definition terminateCallWaits (t : EsThread) (force : option bool)
    (t1 t2 : EsThread) : Prop :=
  let i := length (terminations t) in
  let pendingAtCall := promiseRef <$> taskValues t in
  (posted t1 = posted t ∧ listeners t1 = listeners t
   ∧ channelClosed t1 = channelClosed t)
  ∧ (∃ f a,
       terminations t2 !! i = Some f
       ∧ forceTerminateShared f = force
       ∧ aggregates t2 !! awaited f = Some a
       ∧ inputs a = pendingAtCall
       ∧ ((∃ r, r ∈ pendingAtCall ∧ promises t2 !! r = Some Pending) →
          finished f = false ∧ turn (Resume i) t2 = t2)
       ∧ ((∀ r, r ∈ pendingAtCall → promises t2 !! r ≠ Some Pending) →
          finished f = false →
          let t3 := turn (Resume i) t2 in
          posted t3 = posted t2 ++ [(Terminate force, [])]
          ∧ (TaskResultDispatch ∉ listeners t3)
          ∧ tornDown t3 ∧ channelClosed t3 = true))
  ∧ (channelClosed t2 = true →
     ∃ j f a,
       terminations t2 !! j = Some f ∧ finished f = true
       ∧ aggregates t2 !! awaited f = Some a
       ∧ ∀ r, r ∈ inputs a → promises t2 !! r ≠ Some Pending).

(** ** The pool *)

(** The selected member is one of least load, and the first such. *)
Definition firstLeastLoaded (ts : list EsThread) (i : nat) : Prop :=
  ∃ t, ts !! i = Some t
       ∧ (∀ j t', ts !! j = Some t' → numQueuedTasks t ≤ numQueuedTasks t')
       ∧ (∀ j t', j < i → ts !! j = Some t' →
                  numQueuedTasks t < numQueuedTasks t').

(** The callback leaves at least one task pending on an idle member. *)
Definition enqueues (cb : list Turn) (pool : EsThreadPool) : Prop :=
  ∀ t, t ∈ threads pool → numQueuedTasks t = 0 →
       0 < numQueuedTasks (run cb t).

(** A pool of two idle threads, as [poolSpawn] builds it. *)
Definition twoThreadPool : EsThreadPool :=
  {| threads := [readyThread; readyThread];
     poolOptions := {| poolSize := 2; poolName := "EsThreadPool" |};
     settledCalls := [] |}.

(** The turns a pool turn may give to a member all satisfy [P]. *)
Definition memberAllows (P : Turn → Prop) (e : PoolTurn) : Prop :=
  match e with
  | Member _ e' => P e'
  | Queue cb => Forall P cb
  | PoolSettled => P CallSettled
  | PoolTerminate => P (CallTerminate None)
  end.

Definition notInvoke (e : Turn) : Prop :=
  match e with
  | Invoke _ _ _ => False
  | _ => True
  end.

(** Two tasks were queued on [twoThreadPool] and the first one has returned
    its result: member 0 is idle, member 1 is busy. *)
Definition unevenPool : EsThreadPool :=
  poolRun [Queue (invoking "takesTime" [JsNumber 250] "uid-1");
           Queue (invoking "takesTime" [JsNumber 250] "uid-2");
           Member 0 (Deliver (MessageEvent
                       (TaskResult "uid-1" (JsString "Hello World!"))))]
          twoThreadPool.

(** ** Further observations *)


Definition isTerminate (m : ControllerMessage * list Transferable) : bool :=
  match m.1 with
  | Run _ _ _ => false
  | Terminate _ => true
  end.


Definition terminatesPosted (t : EsThread) : nat :=
  length (filter (λ m, isTerminate m = true) (posted t)).

(** How many calls of [terminate] are past their [await]. *)
Definition finishedCalls (t : EsThread) : nat :=
  length (filter (λ f, finished f = true) (terminations t)).


(** The turn carries the UID: a Result or an Error for it, or a proxy call
    that is given it. *)
Definition concerns (uid : TaskUID) (e : Turn) : Prop :=
  match e with
  | Deliver (MessageEvent (TaskResult u _)) => u = uid
  | Deliver (MessageEvent (TaskError u _)) => u = uid
  | Invoke _ _ u => u = uid
  | _ => False
  end.

(** What a turn does to a returned thread that satisfies the invariants:
    nothing at all, or the one operation it stands for. *)
Inductive ReturnedTurn (t : EsThread) : Turn → EsThread → Prop :=
| returned_same e : ReturnedTurn t e t
| returned_dispatch evt :
    listeners t = [TaskResultDispatch] →
    ReturnedTurn t (Deliver evt) (exec (taskResultDispatch evt) t)
| returned_invoke name method rawArgs uid :
    methods t !! name = Some (Proxy method) →
    ReturnedTurn t (Invoke name rawArgs uid)
      (exec (callProxy (Proxy method) rawArgs uid) t)
| returned_settled :
    ReturnedTurn t CallSettled (exec (promiseCombinator PromiseAllSettled) t)
| returned_resolved :
    ReturnedTurn t CallResolved (exec (promiseCombinator PromiseAll) t)
| returned_terminate force :
    ReturnedTurn t (CallTerminate force) (exec (terminate force) t)
| returned_resume i f :
    terminations t !! i = Some f → finished f = false →
    outcomeOf t (awaited f) = Some Succeeded →
    ReturnedTurn t (Resume i) (terminateTail i f t).

(** Nothing has happened on the thread yet: no task, no promise, nothing
    posted, no error event. *)
Definition untouched (t : EsThread) : Prop :=
  posted t = [] ∧ tasks t = ∅ ∧ promises t = [] ∧ settlements t = []
  ∧ aggregates t = [] ∧ terminations t = [] ∧ errorEvents t = [].




(** The channel is closed and the result listener gone exactly when a call of
    [terminate] got past its [await], one Terminate message for each such
    call. *)
Definition closedWhenFinished (t : EsThread) : Prop :=
  terminatesPosted t = finishedCalls t
  ∧ if channelClosed t
    then listeners t = [] ∧ finishedCalls t ≠ 0
    else listeners t = [TaskResultDispatch] ∧ finishedCalls t = 0.

(** A pending promise that no entry of the mapping leads to. *)
Definition orphan (r : PromiseRef) (t : EsThread) : Prop :=
  promises t !! r = Some Pending
  ∧ ∀ u k, tasks t !! u = Some k → promiseRef k ≠ r.

(** The turns in which an event of the channel is dispatched. *)
Definition isDeliver (e : Turn) : bool :=
  match e with
  | Deliver _ => true
  | _ => false
  end.

(** * Properties *)

Ltac js_unfold :=
  cbv [exec mbind Js_bind bind mret Js_ret ret read update throw try_catch
       tasks_get tasks_delete tasks_set postMessage addEventListener
       removeEventListener dispatchErrorEvent assertMessageEvent
       task_resolve task_reject newEsTaskPromise settleHandshake].

(** ** Argument packaging *)

Lemma prepareArguments_loop rawArgs args transferables :
  fold_left prepareArguments_step rawArgs (args, transferables)
  = (args ++ rawArgs, transferables ++ transferList rawArgs).
Proof.
  revert args transferables.
  induction rawArgs as [|arg rawArgs IH]; intros args transferables.
  - unfold transferList. simpl. by rewrite !app_nil_r.
  - cbn [fold_left prepareArguments_step]. unfold transferList.
    rewrite filter_cons.
    destruct (isTransferDescriptor arg) eqn:E.
    + rewrite decide_True by done. rewrite IH. unfold transferList.
      rewrite fmap_cons. simpl. by rewrite <- !app_assoc.
    + rewrite decide_False by (by intros ?). rewrite IH.
      by rewrite <- app_assoc.
Qed.

Lemma prepareArguments_spec rawArgs :
  prepareArguments rawArgs = (rawArgs, transferList rawArgs).
Proof. unfold prepareArguments. by rewrite prepareArguments_loop. Qed.

Lemma callProxy_exec method rawArgs uid t :
  exec (callProxy (Proxy method) rawArgs uid) t
  = set_posted (λ log, log ++ [(Run uid method rawArgs, transferList rawArgs)])
      (set_tasks (insert uid {| taskUID := uid; promiseRef := length (promises t) |})
         (set_heap (promises t ++ [Pending]) (settlements t) (aggregates t) t)).
Proof.
  unfold callProxy. rewrite prepareArguments_spec. by js_unfold.
Qed.

(** C7.  The Run message of a proxy call carries the arguments in the order
    they were given, and the transfer list posted with it is the
    concatenation, in argument order, of the transfer lists of the arguments
    that are transfer descriptors. *)
Theorem prepareArguments_preserves_order (rawArgs : list JsValue) :
  prepareArguments rawArgs
  = (rawArgs,
     mjoin (descriptorTransferables <$>
              filter (λ arg, isTransferDescriptor arg = true) rawArgs))
  ∧ ∀ method uid t,
      posted (exec (callProxy (createProxyFunction method) rawArgs uid) t)
      = posted t ++
          [(Run uid method rawArgs,
            mjoin (descriptorTransferables <$>
                     filter (λ arg, isTransferDescriptor arg = true) rawArgs))].
Proof.
  split; [apply prepareArguments_spec|].
  intros method uid t. unfold createProxyFunction.
  by rewrite callProxy_exec.
Qed.

Lemma descriptor_neq_payload send ts : JsTransferDescriptor send ts ≠ send.
Proof. intros H. apply (f_equal depth) in H. simpl in H. lia. Qed.

(** C9.  A transfer descriptor given as the [i]-th argument is the [i]-th
    element of the [args] of the Run message, as the descriptor itself and
    not as the payload it wraps. *)
Theorem descriptor_sent_unstripped (method : string) (rawArgs : list JsValue)
    (uid : TaskUID) (t : EsThread) (i : nat) (send : JsValue)
    (ts : list Transferable) :
  rawArgs !! i = Some (JsTransferDescriptor send ts) →
  ∃ args transfer,
    last (posted (exec (callProxy (createProxyFunction method) rawArgs uid) t))
    = Some (Run uid method args, transfer)
    ∧ args !! i = Some (JsTransferDescriptor send ts)
    ∧ args !! i ≠ Some send.
Proof.
  intros Hi. exists rawArgs, (transferList rawArgs).
  unfold createProxyFunction. rewrite callProxy_exec. cbn [posted set_posted].
  rewrite last_snoc. split_and!; [done|done|].
  rewrite Hi. intros [= H]. by apply descriptor_neq_payload in H.
Qed.

Lemma descriptor_sent_unstripped_witness :
  ∃ args transfer,
    last (posted (exec (callProxy (createProxyFunction "takesTime")
                          [JsNumber 1; JsTransferDescriptor (JsObject 7) [7]]
                          "uid-1") readyThread))
    = Some (Run "uid-1" "takesTime" args, transfer)
    ∧ args !! 1 = Some (JsTransferDescriptor (JsObject 7) [7])
    ∧ args !! 1 ≠ Some (JsObject 7).
Proof.
  apply (descriptor_sent_unstripped "takesTime"
           [JsNumber 1; JsTransferDescriptor (JsObject 7) [7]] "uid-1"
           readyThread 1 (JsObject 7) [7]).
  reflexivity.
Defined.

(** ** Invariants of the promise heap and the pending mapping *)

Lemma HeapInv_ext t t' :
  tasks t' = tasks t → promises t' = promises t →
  settlements t' = settlements t → aggregates t' = aggregates t →
  terminations t' = terminations t →
  HeapInv t → HeapInv t'.
Proof.
  intros E1 E2 E3 E4 E5 [].
  split; unfold logged; rewrite ?E1, ?E2, ?E3, ?E4, ?E5; done.
Qed.

Lemma settledState_not_pending s : settledState s ≠ Pending.
Proof. by destruct s. Qed.

Lemma pending_not_logged t r :
  HeapInv t → promises t !! r = Some Pending → r ∉ logged t.
Proof.
  intros H Hr Hin. unfold logged in Hin.
  apply list_elem_of_fmap in Hin as ([r' s] & -> & Hin).
  apply (inv_log _ H) in Hin. simpl in Hr. rewrite Hr in Hin.
  injection Hin as Hin. by eapply settledState_not_pending.
Qed.

(** *** The heap grows *)

Lemma isPending_alloc heap r :
  r < length heap → isPending (heap ++ [Pending]) r = isPending heap r.
Proof. intros Hr. unfold isPending. by rewrite lookup_app_l. Qed.

Lemma stillPending_alloc heap ins :
  (∀ r, r ∈ ins → r < length heap) →
  stillPending (heap ++ [Pending]) ins = stillPending heap ins.
Proof.
  intros Hv. unfold stillPending. induction ins as [|r ins IH]; [done|].
  rewrite !filter_cons, isPending_alloc by (apply Hv; left).
  rewrite IH; [done|]. intros r' Hr'. apply Hv. by right.
Qed.

Lemma AggregateInv_alloc heap log a :
  AggregateInv heap log a → AggregateInv (heap ++ [Pending]) log a.
Proof.
  intros [Hv Ha Ho]. split.
  - intros r Hr. rewrite length_app. specialize (Hv r Hr). lia.
  - by rewrite stillPending_alloc.
  - unfold expectedOutcome. rewrite stillPending_alloc by done. exact Ho.
Qed.

(** *** A pending promise settles *)

Lemma isPending_settle heap r0 s r :
  isPending (<[r0 := settledState s]> heap) r
  = if decide (r = r0) then false else isPending heap r.
Proof.
  unfold isPending. case_decide as E.
  - subst r. destruct (decide (r0 < length heap)).
    + rewrite list_lookup_insert_eq by done. by destruct s.
    + rewrite list_insert_ge by lia.
      by rewrite lookup_ge_None_2 by lia.
  - by rewrite list_lookup_insert_ne.
Qed.

Lemma stillPending_settle heap r0 s ins :
  stillPending (<[r0 := settledState s]> heap) ins
  = filter (λ r, r ≠ r0) (stillPending heap ins).
Proof.
  unfold stillPending. induction ins as [|r ins IH]; [done|].
  rewrite !filter_cons, isPending_settle, IH.
  destruct (decide (r = r0)) as [->|E].
  - rewrite decide_False by done.
    destruct (decide (isPending heap r0 = true)); [|done].
    rewrite filter_cons. by rewrite decide_False by tauto.
  - destruct (decide (isPending heap r = true)); [|done].
    by rewrite filter_cons, decide_True by done.
Qed.

Lemma stillPending_settle_other heap r0 s ins :
  r0 ∉ ins →
  stillPending (<[r0 := settledState s]> heap) ins = stillPending heap ins.
Proof.
  intros Hn. unfold stillPending. induction ins as [|r ins IH]; [done|].
  apply not_elem_of_cons in Hn as [Hne Hn].
  rewrite !filter_cons, isPending_settle. rewrite (IH Hn).
  by rewrite (decide_False (P := r = r0)) by done.
Qed.

Lemma firstRejection_snoc ins log entry :
  firstRejection ins (log ++ [entry])
  = match firstRejection ins log with
    | Some e => Some e
    | None => rejectionIn ins entry
    end.
Proof.
  unfold firstRejection. rewrite omap_app, head_app.
  destruct (omap (rejectionIn ins) log); simpl; [|done].
  by destruct (rejectionIn ins entry).
Qed.

Lemma firstRejection_None ins log :
  (∀ r, r ∈ ins → r ∉ log.*1) → firstRejection ins log = None.
Proof.
  intros Hd. unfold firstRejection.
  destruct (omap (rejectionIn ins) log) as [|e l] eqn:E; [done|].
  assert (e ∈ omap (rejectionIn ins) log) as He by (rewrite E; left).
  apply list_elem_of_omap in He as ([r s] & Hin & Hf).
  unfold rejectionIn in Hf. simpl in Hf. destruct s; [done|].
  case_decide as Hr; [|done]. exfalso. apply (Hd r Hr).
  apply list_elem_of_fmap. by exists (r, Reject reason).
Qed.

Lemma react_combinator r s a : combinator (react r s a) = combinator a.
Proof. unfold react. case_decide; [|done]. by destruct s, (combinator a). Qed.

Lemma react_inputs r s a : inputs (react r s a) = inputs a.
Proof. unfold react. case_decide; [|done]. by destruct s, (combinator a). Qed.

Lemma react_awaiting r s a :
  awaiting (react r s a) = filter (λ r', r' ≠ r) (awaiting a).
Proof.
  unfold react. case_decide as Hin; [by destruct s, (combinator a)|].
  symmetry. induction (awaiting a) as [|x l IH]; [done|].
  apply not_elem_of_cons in Hin as [Hne Hin].
  rewrite filter_cons, decide_True by done. by rewrite IH.
Qed.

Lemma react_Succeeded r s a :
  outcome a = Succeeded → outcome (react r s a) = Succeeded.
Proof.
  intros H. unfold react. case_decide; [|done].
  destruct s, (combinator a); simpl; by rewrite H.
Qed.

Lemma AggregateInv_react heap log r0 s a :
  heap !! r0 = Some Pending →
  AggregateInv heap log a →
  AggregateInv (<[r0 := settledState s]> heap) (log ++ [(r0, s)]) (react r0 s a).
Proof.
  intros Hr0 [Hv Ha Ho]. split.
  - intros r. rewrite react_inputs, length_insert. apply Hv.
  - by rewrite react_awaiting, react_inputs, stillPending_settle, Ha.
  - rewrite react_combinator, react_inputs. unfold expectedOutcome.
    rewrite firstRejection_snoc. unfold react.
    destruct (decide (r0 ∈ awaiting a)) as [Hin|Hin].
    + assert (r0 ∈ inputs a) as Hin'.
      { rewrite Ha in Hin. by apply list_elem_of_filter in Hin as [_ ?]. }
      assert (stillPending heap (inputs a) ≠ []) as Hne.
      { rewrite <- Ha. intros E. rewrite E in Hin. by apply elem_of_nil in Hin. }
      rewrite stillPending_settle, <- Ha.
      unfold expectedOutcome in Ho. unfold rejectionIn. simpl.
      destruct s as [v|e], (combinator a) eqn:Ec; simpl; rewrite Ho;
        destruct (firstRejection (inputs a) log) eqn:Ef;
        rewrite ?decide_True by done;
        try done;
        destruct (stillPending heap (inputs a)); done.
    + assert (r0 ∉ inputs a) as Hin'.
      { intros Hi. apply Hin. rewrite Ha. apply list_elem_of_filter.
        split; [|done]. unfold isPending. by rewrite Hr0. }
      rewrite stillPending_settle_other by done.
      unfold rejectionIn. simpl.
      replace (match s with
               | Resolve _ => None
               | Reject e => if decide (r0 ∈ inputs a) then Some e else None
               end) with (@None JsError)
        by (destruct s; [done|by rewrite decide_False]).
      rewrite Ho. unfold expectedOutcome.
      by destruct (firstRejection (inputs a) log).
Qed.

Lemma AggregateInv_new c heap log ins :
  (∀ r, r ∈ ins → heap !! r = Some Pending) →
  (∀ r, r ∈ ins → r ∉ log.*1) →
  AggregateInv heap log (newAggregate c ins heap).
Proof.
  intros Hp Hl. split; simpl.
  - intros r Hr. eapply lookup_lt_Some. by apply Hp.
  - done.
  - unfold expectedOutcome. rewrite firstRejection_None by done.
    assert (omap (rejectionOf heap) ins = []) as ->.
    { clear Hl. induction ins as [|r ins IH]; [done|]. simpl.
      unfold rejectionOf at 1. rewrite (Hp r) by left.
      apply IH. intros r' Hr'. apply Hp. by right. }
    simpl. by destruct c.
Qed.

(** *** Each operation keeps the invariant *)

Lemma HeapInv_callProxy method rawArgs uid t :
  HeapInv t → HeapInv (exec (callProxy (Proxy method) rawArgs uid) t).
Proof.
  intros H. rewrite callProxy_exec.
  eapply (HeapInv_ext
    (set_tasks (insert uid {| taskUID := uid; promiseRef := length (promises t) |})
       (set_heap (promises t ++ [Pending]) (settlements t) (aggregates t) t)));
    [done..|].
  destruct H as [Hk Hp Hi Hl Hh Hn Ha Ht].
  assert (∀ u a, tasks t !! u = Some a → promiseRef a < length (promises t))
    as Hlt by (intros u a Hu; eapply lookup_lt_Some, Hp, Hu).
  split; simpl.
  - intros u a. rewrite lookup_insert. case_decide; [|by apply Hk].
    subst. by intros [= <-].
  - intros u a. rewrite lookup_insert. case_decide.
    + intros [= <-]. simpl. by rewrite lookup_app_r, Nat.sub_diag by lia.
    + intros Hu. apply lookup_app_l_Some. by eapply Hp.
  - intros u1 u2 a b. rewrite !lookup_insert.
    repeat case_decide; subst; try done.
    + intros [= <-] Hb. simpl. apply Hlt in Hb. lia.
    + intros Ha' [= <-]. simpl. apply Hlt in Ha'. lia.
    + apply Hi.
  - intros r s Hin. apply lookup_app_l_Some. by apply Hl.
  - intros r st. rewrite lookup_app_Some. intros [Hr|[_ Hr]]; [by eapply Hh|].
    left. apply list_lookup_singleton_Some in Hr as [_ <-]. done.
  - done.
  - eapply Forall_impl; [exact Ha|]. intros a. apply AggregateInv_alloc.
  - done.
Qed.

Lemma settle_exec task s t :
  promises t !! promiseRef task = Some Pending →
  exec (settle task s) t
  = set_heap (<[promiseRef task := settledState s]> (promises t))
      (settlements t ++ [(promiseRef task, s)])
      (react (promiseRef task) s <$> aggregates t) t.
Proof. intros H. unfold exec, settle. by rewrite H. Qed.

Lemma HeapInv_settle uid task s t :
  HeapInv t → tasks t !! uid = Some task →
  HeapInv (exec (settle task s) (set_tasks (delete uid) t)).
Proof.
  intros H Hu. pose proof (pending_not_logged t (promiseRef task) H) as Hnl.
  destruct H as [Hk Hp Hi Hl Hh Hn Ha Ht].
  pose proof (Hp _ _ Hu) as Hr0. specialize (Hnl Hr0).
  rewrite settle_exec by done.
  set (r0 := promiseRef task) in *.
  split; simpl.
  - intros u a Hd. apply lookup_delete_Some in Hd as [_ Hd]. by apply Hk.
  - intros u a Hd. apply lookup_delete_Some in Hd as [Hne Hd].
    rewrite list_lookup_insert_ne; [by eapply Hp|].
    intros E. apply Hne. eapply Hi; [exact Hu|exact Hd|done].
  - intros u1 u2 a b Hd1 Hd2.
    apply lookup_delete_Some in Hd1 as [_ Hd1].
    apply lookup_delete_Some in Hd2 as [_ Hd2]. by eapply Hi.
  - intros r s'. rewrite elem_of_app, list_elem_of_singleton.
    intros [Hin|[= -> ->]].
    + rewrite list_lookup_insert_ne; [by apply Hl|].
      intros <-. apply Hnl. apply list_elem_of_fmap. by exists (r0, s').
    + apply list_lookup_insert_eq. by eapply lookup_lt_Some.
  - intros r st. destruct (decide (r = r0)) as [->|Hne].
    + intros _. right. exists s. apply elem_of_app. right. by left.
    + rewrite list_lookup_insert_ne by done. intros Hr.
      destruct (Hh _ _ Hr) as [?|[s' Hs']]; [by left|].
      right. exists s'. apply elem_of_app. by left.
  - unfold logged. simpl. rewrite fmap_app. apply NoDup_app.
    split_and!; [done| |apply NoDup_singleton].
    intros r Hr. simpl. rewrite list_elem_of_singleton. by intros ->.
  - apply Forall_fmap. eapply Forall_impl; [exact Ha|].
    intros a Hinv. by apply AggregateInv_react.
  - eapply Forall_impl; [exact Ht|]. intros f (a & Hf & Hc & Hfin).
    exists (react r0 s a). rewrite list_lookup_fmap, Hf. split_and!; [done| |].
    + by rewrite react_combinator.
    + intros Hfi. by apply react_Succeeded, Hfin.
Qed.

Lemma taskValues_spec t task :
  task ∈ taskValues t ↔ ∃ uid, tasks t !! uid = Some task.
Proof.
  unfold taskValues. rewrite list_elem_of_fmap. split.
  - intros ([uid task'] & -> & Hin). exists uid.
    by apply elem_of_map_to_list in Hin.
  - intros [uid Hu]. exists (uid, task). split; [done|].
    by apply elem_of_map_to_list.
Qed.

Lemma taskValues_pending t r :
  HeapInv t → r ∈ promiseRef <$> taskValues t →
  promises t !! r = Some Pending.
Proof.
  intros H Hin. apply list_elem_of_fmap in Hin as (task & -> & Hin).
  apply taskValues_spec in Hin as [uid Hu]. by eapply inv_pending.
Qed.

Lemma TerminationInv_snoc aggs a f :
  TerminationInv aggs f → TerminationInv (aggs ++ [a]) f.
Proof.
  intros (a' & Hf & Hrest). exists a'. split; [|done].
  by apply lookup_app_l_Some.
Qed.

Lemma HeapInv_promiseCombinator c t :
  HeapInv t → HeapInv (exec (promiseCombinator c) t).
Proof.
  intros H. pose proof (taskValues_pending t) as Hp'.
  pose proof (pending_not_logged t) as Hnl.
  destruct H as [Hk Hp Hi Hl Hh Hn Ha Ht] eqn:EH.
  unfold exec, promiseCombinator. simpl. split; simpl; try done.
  - apply Forall_app. split; [done|]. apply Forall_singleton.
    apply AggregateInv_new.
    + intros r Hr. by apply Hp'.
    + intros r Hr. apply Hnl; [done|]. by apply Hp'.
  - eapply Forall_impl; [exact Ht|]. intros f. apply TerminationInv_snoc.
Qed.

Lemma terminate_exec force t :
  exec (terminate force) t
  = set_terminations (λ fs, fs ++
      [{| awaited := length (aggregates t); forceTerminateShared := force;
          finished := false |}])
      (exec (promiseCombinator PromiseAllSettled) t).
Proof. done. Qed.

Lemma HeapInv_terminate force t :
  HeapInv t → HeapInv (exec (terminate force) t).
Proof.
  intros H. rewrite terminate_exec.
  apply (HeapInv_promiseCombinator PromiseAllSettled) in H.
  destruct H as [Hk Hp Hi Hl Hh Hn Ha Ht].
  split; simpl; try done.
  apply Forall_app. split; [done|]. apply Forall_singleton.
  eexists. simpl. split; [by apply list_lookup_middle|]. done.
Qed.

(** ** What a message does to a returned thread *)

Lemma settle_normal task s t :
  settle task s t = (Normal (), exec (settle task s) t).
Proof. unfold exec, settle. by repeat case_match. Qed.

Lemma taskResultDispatch_settles data uid s task t :
  settlementOf data = Some (uid, s) →
  tasks t !! uid = Some task →
  exec (taskResultDispatch (MessageEvent data)) t
  = exec (settle task s) (exec (tasks_delete (taskUID task)) t).
Proof.
  intros Hd Hu. destruct data; simplify_eq/=;
    unfold taskResultDispatch; js_unfold; rewrite Hu; simpl;
    by rewrite settle_normal.
Qed.

Lemma taskResultDispatch_fault evt e t :
  faultOf t evt = Some e →
  exec (taskResultDispatch evt) t = set_errorEvents (λ log, log ++ [e]) t.
Proof.
  intros Hf. destruct evt as [[]|]; simpl in Hf;
    unfold taskResultDispatch; js_unfold; simpl;
    try (destruct (tasks t !! uid); [done|]); by simplify_eq/=.
Qed.

Lemma faultOf_None t evt :
  faultOf t evt = None ↔
  ∃ data uid s task, evt = MessageEvent data
    ∧ settlementOf data = Some (uid, s) ∧ tasks t !! uid = Some task.
Proof.
  split.
  - destruct evt as [[]|]; simpl; try done;
      destruct (tasks t !! uid) as [task|] eqn:E; try done; intros _;
      eexists _, _, _, task; split_and!; try done; by rewrite E.
  - intros (data & uid & s & task & -> & Hs & Hu).
    destruct data; simplify_eq/=; by rewrite Hu.
Qed.

Lemma HeapInv_taskResultDispatch evt t :
  HeapInv t → HeapInv (exec (taskResultDispatch evt) t).
Proof.
  intros H. destruct (faultOf t evt) as [e|] eqn:Hf.
  - rewrite (taskResultDispatch_fault _ e) by done.
    by eapply HeapInv_ext; [..|exact H].
  - apply faultOf_None in Hf as (data & uid & s & task & -> & Hs & Hu).
    rewrite (taskResultDispatch_settles _ uid s task) by done.
    rewrite (inv_key _ H _ _ Hu). by apply HeapInv_settle.
Qed.

(** ** What [terminate] does after its [await] *)

Lemma terminate_resume_suspended i f t :
  terminations t !! i = Some f → finished f = false →
  outcomeOf t (awaited f) = Some Waiting →
  exec (terminate_resume i) t = t.
Proof.
  intros Hi Hf Ho. unfold terminate_resume. js_unfold. by rewrite Hi, Hf, Ho.
Qed.

Lemma terminate_resume_runs i f t :
  terminations t !! i = Some f → finished f = false →
  outcomeOf t (awaited f) = Some Succeeded →
  exec (terminate_resume i) t = terminateTail i f t.
Proof.
  intros Hi Hf Ho. unfold terminate_resume, terminateTail, closeChannel.
  js_unfold. rewrite Hi, Hf, Ho. simpl. by destruct (worker t).
Qed.

Lemma terminate_resume_finished i f t :
  terminations t !! i = Some f → finished f = true →
  exec (terminate_resume i) t = t.
Proof.
  intros Hi Hf. unfold terminate_resume. js_unfold. by rewrite Hi, Hf.
Qed.

Lemma terminate_resume_absent i t :
  terminations t !! i = None → exec (terminate_resume i) t = t.
Proof. intros Hi. unfold terminate_resume. js_unfold. by rewrite Hi. Qed.

Lemma closeChannel_heap t :
  tasks (exec closeChannel t) = tasks t
  ∧ promises (exec closeChannel t) = promises t
  ∧ settlements (exec closeChannel t) = settlements t
  ∧ aggregates (exec closeChannel t) = aggregates t
  ∧ terminations (exec closeChannel t) = terminations t.
Proof. unfold closeChannel. js_unfold. by destruct (worker t). Qed.

Lemma TerminationInv_outcome t f :
  HeapInv t → f ∈ terminations t →
  outcomeOf t (awaited f) = Some Waiting
  ∨ outcomeOf t (awaited f) = Some Succeeded.
Proof.
  intros H Hin. pose proof (inv_terms _ H) as Ht.
  rewrite Forall_forall in Ht. destruct (Ht f Hin) as (a & Ha & Hc & _).
  pose proof (inv_aggs _ H) as Hg. rewrite Forall_lookup in Hg.
  pose proof (agg_outcome _ _ _ (Hg _ _ Ha)) as Ho.
  unfold outcomeOf. rewrite Ha. simpl. rewrite Ho, Hc. unfold expectedOutcome.
  destruct (stillPending (promises t) (inputs a)); auto.
Qed.

Lemma HeapInv_terminate_resume i t :
  HeapInv t → HeapInv (exec (terminate_resume i) t).
Proof.
  intros H. destruct (terminations t !! i) as [f|] eqn:Hi;
    [|by rewrite terminate_resume_absent].
  destruct (finished f) eqn:Hf; [by erewrite terminate_resume_finished|].
  destruct (TerminationInv_outcome t f H) as [Ho|Ho];
    [by eapply list_elem_of_lookup_2| |].
  { by erewrite terminate_resume_suspended. }
  erewrite terminate_resume_runs by done. unfold terminateTail.
  destruct (closeChannel_heap
    (set_listeners (filter (λ l, l ≠ TaskResultDispatch))
       (set_posted (λ log, log ++ [(Terminate (forceTerminateShared f), [])])
          (set_terminations (alter finish i) t)))) as (E1 & E2 & E3 & E4 & E5).
  destruct H as [Hk Hp Hl' Hl Hh Hn Ha Ht].
  split; unfold logged; rewrite ?E1, ?E2, ?E3, ?E4, ?E5; simpl; try done.
  apply Forall_alter; [done|]. intros f' Hf'. rewrite Hi in Hf'.
  injection Hf' as <-. rewrite Forall_lookup in Ht.
  destruct (Ht _ _ Hi) as (a & Hfa & Hc & _). exists a. simpl.
  split_and!; [done..|]. intros _. unfold outcomeOf in Ho. rewrite Hfa in Ho.
  by injection Ho.
Qed.

(** ** The life cycle of a thread *)

Lemma createMethodsProxy_run names t :
  createMethodsProxy names t
  = (Normal (), set_methods (installProxies names) t).
Proof.
  revert t. induction names as [|name names IH]; intros t.
  - by destruct t.
  - cbn [createMethodsProxy]. js_unfold.
    change (createMethodsProxy names ?x) with (createMethodsProxy names x).
    by rewrite IH.
Qed.

Lemma installProxies_lookup names ms name :
  installProxies names ms !! name
  = if decide (name ∈ names) then Some (createProxyFunction name)
    else ms !! name.
Proof.
  revert ms. induction names as [|n names IH]; intros ms.
  - by rewrite decide_False by apply not_elem_of_nil.
  - change (installProxies (n :: names) ms)
      with (installProxies names (<[n := createProxyFunction n]> ms)).
    rewrite IH. destruct (decide (name ∈ names)) as [Hin|Hin].
    + rewrite decide_True; [done|by right].
    + rewrite lookup_insert. destruct (decide (n = name)) as [->|Hne].
      * rewrite decide_True; [done|by left].
      * rewrite decide_False; [done|].
        intros [?|?]%elem_of_cons; by simplify_eq.
Qed.

Lemma Inv_Spawn w threadOptions t0 :
  Spawn w threadOptions = Normal t0 → Inv t0.
Proof.
  unfold Spawn, newEsThread. intros H.
  destruct w; simplify_eq/=; (split; [split|split]); simpl; try done;
    try (intros ???; by rewrite ?lookup_empty);
    try (intros ?????; by rewrite ?lookup_empty);
    try (intros ?? Hx; by apply elem_of_nil in Hx);
    try (intros ?? Hx; by rewrite lookup_nil in Hx);
    try apply NoDup_nil_2; try apply Forall_nil_2.
Qed.

(** *** The handshake, turn by turn *)

Lemma initMessageHandler_exec data t :
  handshake t = HandshakePending →
  exec (initMessageHandler (MessageEvent data)) t
  = set_handshake (handshakeVerdict data)
      (set_listeners (filter (λ l, l ≠ InitMessageHandler)) t).
Proof.
  intros H. unfold initMessageHandler. js_unfold.
  destruct data; simpl; by rewrite H.
Qed.

Lemma initThread_resume_resolved names t :
  spawned t = SpawnPending → handshake t = HandshakeResolved names →
  exec initThread_resume t
  = set_spawned SpawnReturned
      (set_listeners (λ ls, if decide (TaskResultDispatch ∈ ls) then ls
                            else ls ++ [TaskResultDispatch])
         (set_methods (installProxies names) t)).
Proof.
  intros Hs Hh. unfold initThread_resume. js_unfold. rewrite Hs, Hh.
  by rewrite createMethodsProxy_run.
Qed.

Lemma initThread_resume_rejected e t :
  spawned t = SpawnPending → handshake t = HandshakeRejected e →
  worker t ≠ ServiceWorker →
  exec initThread_resume t = set_spawned (SpawnRejected e) (exec closeChannel t).
Proof.
  intros Hs Hh Hw. unfold initThread_resume, closeChannel. js_unfold.
  rewrite Hs, Hh. by destruct (worker t).
Qed.

Lemma initThread_resume_idle t :
  spawned t ≠ SpawnPending ∨ handshake t = HandshakePending →
  exec initThread_resume t = t.
Proof.
  intros H. unfold initThread_resume. js_unfold.
  destruct (spawned t) eqn:Hs; try done.
  destruct H as [?|H]; [done|]. by rewrite H.
Qed.

(** Settling a promise touches the heap only. *)
Lemma settle_frame {A} (proj : EsThread → A) task s t :
  (∀ ps log aggs t', proj (set_heap ps log aggs t') = proj t') →
  proj (exec (settle task s) t) = proj t.
Proof. intros H. unfold exec, settle. repeat case_match; apply H. Qed.

(** The turn in which the handshake is decided. *)
Lemma turn_handshake_message data t :
  LifeInv t → spawned t = SpawnPending →
  turn (Deliver (MessageEvent data)) t
  = exec initThread_resume
      (set_handshake (handshakeVerdict data) (set_listeners (λ _, []) t)).
Proof.
  intros [_ HL] Hs. rewrite Hs in HL. destruct HL as (Hh & Hl & _).
  unfold turn, dispatch. rewrite Hl. simpl.
  rewrite initMessageHandler_exec by done. destruct t; simpl in *.
  by subst.
Qed.

Lemma turn_handshake_plain t :
  LifeInv t → spawned t = SpawnPending → turn (Deliver PlainEvent) t = t.
Proof.
  intros [_ HL] Hs. rewrite Hs in HL. destruct HL as (Hh & Hl & _).
  unfold turn, dispatch. rewrite Hl. simpl.
  change (exec (initMessageHandler PlainEvent) t) with t.
  apply initThread_resume_idle. by right.
Qed.

Lemma turn_handshake_timeout t :
  LifeInv t → spawned t = SpawnPending →
  turn TimerFired t
  = exec initThread_resume
      (set_handshake
         (HandshakeRejected (Error (timeoutMessage (timeout (options t))))) t).
Proof.
  intros [_ HL] Hs. rewrite Hs in HL. destruct HL as (Hh & _).
  unfold turn, withTimeout_elapsed. js_unfold. by rewrite Hh.
Qed.

(** Turns on a thread whose [Spawn] has settled. *)
Lemma turn_deliver_returned evt t :
  LifeInv t → spawned t = SpawnReturned →
  turn (Deliver evt) t
  = if decide (TaskResultDispatch ∈ listeners t)
    then exec (taskResultDispatch evt) t else t.
Proof.
  intros [_ HL] Hs. rewrite Hs in HL. destruct HL as (_ & Hl & _).
  assert (spawned (dispatch evt t) = SpawnReturned) as Hs'.
  { unfold dispatch. destruct Hl as [->| ->]; simpl; [|done].
    destruct (faultOf t evt) as [e|] eqn:Hf.
    - by rewrite (taskResultDispatch_fault _ e).
    - apply faultOf_None in Hf as (data & uid & s & task & -> & Hd & Hu).
      rewrite (taskResultDispatch_settles _ uid s task) by done.
      by rewrite (settle_frame spawned). }
  unfold turn. rewrite initThread_resume_idle by (left; by rewrite Hs').
  unfold dispatch. by destruct Hl as [->| ->].
Qed.

Lemma turn_rejected e0 e t :
  LifeInv t → spawned t = SpawnRejected e0 →
  spawned (turn e t) = SpawnRejected e0
  ∧ handshake (turn e t) = handshake t
  ∧ methods (turn e t) = methods t
  ∧ worker (turn e t) = worker t
  ∧ workerTerminated (turn e t) = workerTerminated t
  ∧ portClosed (turn e t) = portClosed t
  ∧ tasks (turn e t) = tasks t
  ∧ promises (turn e t) = promises t
  ∧ settlements (turn e t) = settlements t
  ∧ aggregates (turn e t) = aggregates t
  ∧ terminations (turn e t) = terminations t
  ∧ (listeners (turn e t) = [InitMessageHandler] ∨ listeners (turn e t) = []).
Proof.
  intros [_ HL] Hs. rewrite Hs in HL. destruct HL as (Hh & _ & _ & Hl).
  destruct e; unfold turn, whenReturned; rewrite ?Hs; try by split_and!.
  - assert (dispatch evt t = t ∨ dispatch evt t = set_listeners (λ _, []) t)
      as Hd.
    { unfold dispatch. destruct Hl as [Hl|Hl]; rewrite Hl; simpl; [|by left].
      unfold initMessageHandler. js_unfold.
      destruct evt as [[]|]; simpl; rewrite ?Hh; simpl; auto;
        right; destruct t; simpl in *; by subst. }
    rewrite initThread_resume_idle.
    + destruct Hd as [-> | ->]; simpl; split_and!; auto.
    + left. destruct Hd as [-> | ->]; simpl; by rewrite Hs.
  - assert (exec withTimeout_elapsed t = t) as ->.
    { unfold withTimeout_elapsed. js_unfold. by rewrite Hh. }
    rewrite initThread_resume_idle by (left; by rewrite Hs).
    by split_and!.
Qed.

(** *** Every turn keeps the invariants *)

Lemma closeChannel_exec t :
  worker t ≠ ServiceWorker →
  exec closeChannel t
  = match worker t with
    | DedicatedWorker => set_workerTerminated true t
    | _ => set_portClosed true t
    end.
Proof. intros H. unfold closeChannel. js_unfold. by destruct (worker t). Qed.

Lemma Inv_turn_pending e t :
  Inv t → spawned t = SpawnPending → Inv (turn e t).
Proof.
  intros [HH HL] Hs. pose proof HL as [Hw HL']. rewrite Hs in HL'.
  destruct HL' as (Hh & Hl & Hm & Hc).
  assert (∀ e0, Inv (set_spawned (SpawnRejected e0)
            (exec closeChannel
               (set_handshake (HandshakeRejected e0) (set_listeners (λ _, []) t)))))
    as Hrej.
  { intros e0. rewrite closeChannel_exec by done. simpl.
    split; [by destruct (worker t); (eapply HeapInv_ext; [..|exact HH])|].
    unfold LifeInv, tornDown.
    destruct (worker t) eqn:Ew; simpl; rewrite ?Ew; split_and!; auto. }
  destruct e as [[data|]| | | | | |];
    try (unfold turn, whenReturned; rewrite Hs; by split).
  - rewrite turn_handshake_message by done.
    destruct data; simpl handshakeVerdict;
      try (erewrite initThread_resume_rejected by done; apply Hrej).
    rewrite (initThread_resume_resolved methodNames) by done. simpl.
    split; [by eapply HeapInv_ext; [..|exact HH]|].
    split; [done|]. simpl. split_and!.
    + exists methodNames. split; [done|]. intros name. simpl.
      by rewrite installProxies_lookup, Hm, lookup_empty.
    + by left.
    + unfold channelClosed in *. simpl. by rewrite Hc.
  - rewrite turn_handshake_plain by done. by split.
  - rewrite turn_handshake_timeout by done.
    erewrite initThread_resume_rejected by done.
    rewrite closeChannel_exec by done. simpl.
    split; [by destruct (worker t); (eapply HeapInv_ext; [..|exact HH])|].
    unfold LifeInv, tornDown.
    destruct (worker t) eqn:Ew; simpl; rewrite ?Ew; split_and!; auto.
Qed.

Lemma Inv_turn_rejected e0 e t :
  Inv t → spawned t = SpawnRejected e0 → Inv (turn e t).
Proof.
  intros [HH HL] Hs.
  destruct (turn_rejected e0 e t HL Hs)
    as (E1 & E2 & E3 & E4 & E5 & E6 & E7 & E8 & E9 & E10 & E11 & E12).
  split; [by eapply HeapInv_ext; [..|exact HH]|].
  destruct HL as [Hw HL]. rewrite Hs in HL. destruct HL as (Hh & Ht & Hm & _).
  split; [by rewrite E4|]. rewrite E1. split_and!; try congruence.
  unfold tornDown in *. by rewrite E4, E5, E6.
Qed.

Lemma taskResultDispatch_frame {A} (proj : EsThread → A) evt t :
  (∀ ps log aggs t', proj (set_heap ps log aggs t') = proj t') →
  (∀ f t', proj (set_tasks f t') = proj t') →
  (∀ f t', proj (set_errorEvents f t') = proj t') →
  proj (exec (taskResultDispatch evt) t) = proj t.
Proof.
  intros H1 H2 H3. destruct (faultOf t evt) as [e|] eqn:Hf.
  - by rewrite (taskResultDispatch_fault _ e).
  - apply faultOf_None in Hf as (data & uid & s & task & -> & Hd & Hu).
    rewrite (taskResultDispatch_settles _ uid s task) by done.
    rewrite settle_frame by done. apply H2.
Qed.

Lemma invoke_exec name rawArgs uid t :
  exec (invoke name rawArgs uid) t
  = match methods t !! name with
    | Some p => exec (callProxy p rawArgs uid) t
    | None => t
    end.
Proof. unfold invoke. js_unfold. by destruct (methods t !! name). Qed.

Lemma someFinished_snoc t f :
  someFinished t → someFinished (set_terminations (λ fs, fs ++ [f]) t).
Proof.
  intros (i & f' & Hi & Hf). exists i, f'. split; [|done].
  simpl. by apply lookup_app_l_Some.
Qed.

Lemma Inv_turn_returned e t :
  Inv t → spawned t = SpawnReturned → Inv (turn e t).
Proof.
  intros [HH HL] Hs. pose proof HL as [Hw HL']. rewrite Hs in HL'.
  destruct HL' as (Hm & Hl & Hc).
  destruct e as [evt| |name rawArgs uid| | |force|i].
  - rewrite turn_deliver_returned by done. case_decide; [|by split].
    split; [by apply HeapInv_taskResultDispatch|].
    unfold LifeInv, channelClosed, someFinished in *.
    rewrite !(taskResultDispatch_frame worker),
      !(taskResultDispatch_frame spawned),
      !(taskResultDispatch_frame handshake),
      !(taskResultDispatch_frame methods),
      !(taskResultDispatch_frame listeners),
      !(taskResultDispatch_frame workerTerminated),
      !(taskResultDispatch_frame portClosed),
      !(taskResultDispatch_frame terminations) by done.
    by rewrite Hs.
  - unfold turn. destruct Hm as (names & Hh & Hp).
    assert (exec withTimeout_elapsed t = t) as ->.
    { unfold withTimeout_elapsed. js_unfold. by rewrite Hh. }
    rewrite initThread_resume_idle by (left; by rewrite Hs). by split.
  - unfold turn, whenReturned. rewrite Hs, invoke_exec.
    destruct (methods t !! name) as [[method]|]; [|by split].
    split; [by apply HeapInv_callProxy|]. rewrite callProxy_exec.
    unfold LifeInv. simpl. by rewrite Hs.
  - unfold turn, whenReturned. rewrite Hs.
    split; [by apply HeapInv_promiseCombinator|].
    unfold LifeInv. simpl. by rewrite Hs.
  - unfold turn, whenReturned. rewrite Hs.
    split; [by apply HeapInv_promiseCombinator|].
    unfold LifeInv. simpl. by rewrite Hs.
  - unfold turn, whenReturned. rewrite Hs.
    split; [by apply HeapInv_terminate|]. rewrite terminate_exec.
    unfold LifeInv. simpl. rewrite Hs. split_and!; try done.
    intros Hcl. apply Hc in Hcl as (i & f & Hi & Hf). exists i, f.
    split; [|done]. simpl. by apply lookup_app_l_Some.
  - unfold turn, whenReturned. rewrite Hs.
    split; [by apply HeapInv_terminate_resume|].
    destruct (terminations t !! i) as [f|] eqn:Hi;
      [|by rewrite terminate_resume_absent].
    destruct (finished f) eqn:Hf; [by erewrite terminate_resume_finished|].
    destruct (TerminationInv_outcome t f HH) as [Ho|Ho];
      [by eapply list_elem_of_lookup_2| |].
    { by erewrite terminate_resume_suspended. }
    erewrite terminate_resume_runs by done. unfold terminateTail.
    rewrite closeChannel_exec by done. simpl.
    assert (someFinished
      (set_terminations (alter finish i) t)) as (j & f' & Hj & Hf').
    { exists i, (finish f). simpl. by rewrite list_lookup_alter_eq, Hi. }
    simpl in Hj.
    unfold LifeInv. destruct (worker t) eqn:Ew; [| |done]; simpl;
      rewrite Ew, Hs; (split; [done|]); (split_and!; [done| |]);
      try (intros _; by exists j, f');
      destruct Hl as [-> | ->]; by right.
Qed.

Lemma Inv_turn e t : Inv t → Inv (turn e t).
Proof.
  intros H. destruct (spawned t) eqn:Hs.
  - by apply Inv_turn_pending.
  - by apply Inv_turn_returned.
  - by eapply Inv_turn_rejected.
Qed.

Lemma Inv_run es t : Inv t → Inv (run es t).
Proof.
  revert t. induction es as [|e es IH]; intros t H; [done|].
  apply IH. by apply Inv_turn.
Qed.

Lemma reachable_Inv t : reachable t → Inv t.
Proof.
  intros (w & o & t0 & es & Hs & ->). eapply Inv_run, Inv_Spawn, Hs.
Qed.

Lemma reachable_turn e t : reachable t → reachable (turn e t).
Proof.
  intros (w & o & t0 & es & Hs & ->). exists w, o, t0, (es ++ [e]).
  split; [done|]. unfold run. by rewrite foldl_app.
Qed.

Lemma run_app es1 es2 t : run (es1 ++ es2) t = run es2 (run es1 t).
Proof. unfold run. by rewrite foldl_app. Qed.

Lemma reachable_run es t : reachable t → reachable (run es t).
Proof.
  intros (w & o & t0 & es0 & Hs & ->). exists w, o, t0, (es0 ++ es).
  split; [done|]. by rewrite run_app.
Qed.

(** ** What a turn can change *)

Lemma sameHeap_refl t : sameHeap t t.
Proof. by repeat split. Qed.

Lemma turn_effect e t : Inv t → TurnEffect t e (turn e t).
Proof.
  intros [HH HL]. destruct (spawned t) eqn:Hs.
  - (* the handshake is under way *)
    pose proof HL as [Hw HL']. rewrite Hs in HL'.
    destruct HL' as (Hh & Hl & Hm & Hc).
    apply effect_none; [|by rewrite Hs].
    destruct e as [[data|]| | | | | |];
      try (unfold turn, whenReturned; rewrite Hs; apply sameHeap_refl).
    + rewrite turn_handshake_message by done.
      destruct data; simpl handshakeVerdict;
        try (erewrite initThread_resume_rejected by done;
             rewrite closeChannel_exec by done; simpl;
             by destruct (worker t)).
      by rewrite (initThread_resume_resolved methodNames).
    + rewrite turn_handshake_plain by done. apply sameHeap_refl.
    + rewrite turn_handshake_timeout by done.
      erewrite initThread_resume_rejected by done.
      rewrite closeChannel_exec by done. simpl. by destruct (worker t).
  - pose proof HL as [Hw HL']. rewrite Hs in HL'.
    destruct HL' as (Hm & Hl & Hc).
    destruct e as [evt| |name rawArgs uid| | |force|i].
    + rewrite turn_deliver_returned by done.
      case_decide; [by apply effect_dispatch|].
      by apply effect_none; [apply sameHeap_refl|].
    + unfold turn. destruct Hm as (names & Hh & Hp).
      assert (exec withTimeout_elapsed t = t) as ->.
      { unfold withTimeout_elapsed. js_unfold. by rewrite Hh. }
      rewrite initThread_resume_idle by (left; by rewrite Hs).
      by apply effect_none; [apply sameHeap_refl|].
    + unfold turn, whenReturned. rewrite Hs, invoke_exec.
      destruct (methods t !! name) as [[method]|] eqn:Hn.
      * by eapply effect_invoke.
      * by apply effect_none; [apply sameHeap_refl|].
    + unfold turn, whenReturned. rewrite Hs. apply effect_settled.
    + unfold turn, whenReturned. rewrite Hs. apply effect_resolved.
    + unfold turn, whenReturned. rewrite Hs. apply effect_terminate.
    + unfold turn, whenReturned. rewrite Hs.
      destruct (terminations t !! i) as [f|] eqn:Hi;
        [|rewrite terminate_resume_absent by done;
          by apply effect_none; [apply sameHeap_refl|]].
      destruct (finished f) eqn:Hf;
        [erewrite terminate_resume_finished by done;
         by apply effect_none; [apply sameHeap_refl|]|].
      destruct (TerminationInv_outcome t f HH) as [Ho|Ho];
        [by eapply list_elem_of_lookup_2| |].
      { erewrite terminate_resume_suspended by done.
        by apply effect_none; [apply sameHeap_refl|]. }
      erewrite terminate_resume_runs by done. by apply effect_resume.
  - destruct (turn_rejected reason e t HL Hs)
      as (E1 & E2 & E3 & E4 & E5 & E6 & E7 & E8 & E9 & E10 & E11 & E12).
    apply effect_none; [done|]. by rewrite E1, Hs.
Qed.

(** Once [Spawn] has settled, it has: the promise keeps its state. *)
Lemma spawned_stays_turn e t :
  Inv t → spawned t ≠ SpawnPending → spawned (turn e t) = spawned t.
Proof.
  intros H Hs.
  destruct (turn_effect e t H) as [e t' Hsame Hsp|evt Hl|name method rawArgs uid Hm
    | | |force|i f Hi Hf Ho]; try done.
  - by apply Hsp.
  - by apply taskResultDispatch_frame.
  - by rewrite callProxy_exec.
  - unfold terminateTail. rewrite closeChannel_exec by apply H.
    simpl. by destruct (worker t).
Qed.

Lemma spawned_stays es t :
  Inv t → spawned t ≠ SpawnPending → spawned (run es t) = spawned t.
Proof.
  revert t. induction es as [|e es IH]; intros t H Hs; [done|].
  simpl. rewrite IH; [by apply spawned_stays_turn|by apply Inv_turn|].
  by rewrite spawned_stays_turn.
Qed.

Lemma Grows_refl t : Grows t t.
Proof. split; eauto 10. Qed.

Lemma Grows_trans t1 t2 t3 : Grows t1 t2 → Grows t2 t3 → Grows t1 t3.
Proof.
  intros [L1 A1 T1] [L2 A2 T2]. split.
  - by etrans.
  - intros k a Ha. destruct (A1 _ _ Ha) as (a' & Ha' & Ec & Ei).
    destruct (A2 _ _ Ha') as (a'' & Ha'' & Ec' & Ei').
    exists a''. split_and!; [done|congruence..].
  - intros i f Hf. destruct (T1 _ _ Hf) as (f' & Hf' & Ea & Ef & Hfin).
    destruct (T2 _ _ Hf') as (f'' & Hf'' & Ea' & Ef' & Hfin').
    exists f''. split_and!; [done|congruence..|auto].
Qed.

Lemma Grows_same t t' :
  settlements t' = settlements t → aggregates t' = aggregates t →
  terminations t' = terminations t → Grows t t'.
Proof. intros E3 E4 E5. split; rewrite ?E3, ?E4, ?E5; eauto 10. Qed.

Lemma Grows_sameHeap t t' : sameHeap t t' → Grows t t'.
Proof. intros (_ & _ & E3 & E4 & E5). by apply Grows_same. Qed.

Lemma Grows_turn e t : Inv t → Grows t (turn e t).
Proof.
  intros H. pose proof H as [HH HL].
  destruct (turn_effect e t H) as [e t' Hsame _|evt Hl|name method rawArgs uid Hm
    | | |force|i f Hi Hf Ho].
  - by apply Grows_sameHeap.
  - destruct (faultOf t evt) as [err|] eqn:Hfault.
    + rewrite (taskResultDispatch_fault _ err) by done.
      by apply Grows_sameHeap.
    + apply faultOf_None in Hfault as (data & u & s & task & -> & Hd & Hu).
      rewrite (taskResultDispatch_settles _ u s task) by done.
      rewrite settle_exec by (simpl; by eapply inv_pending).
      split; simpl.
      * by apply prefix_app_r.
      * intros k a Ha. exists (react (promiseRef task) s a).
        rewrite list_lookup_fmap, Ha.
        by rewrite react_combinator, react_inputs.
      * eauto 10.
  - rewrite callProxy_exec. by apply Grows_same.
  - split; simpl; [done| |eauto 10].
    intros k a Ha. exists a. split; [|done]. by apply lookup_app_l_Some.
  - split; simpl; [done| |eauto 10].
    intros k a Ha. exists a. split; [|done]. by apply lookup_app_l_Some.
  - rewrite terminate_exec. split; simpl; [done| |].
    + intros k a Ha. exists a. split; [|done]. by apply lookup_app_l_Some.
    + intros j f Hj. exists f. split; [|done]. by apply lookup_app_l_Some.
  - unfold terminateTail.
    destruct (closeChannel_heap
      (set_listeners (filter (λ l, l ≠ TaskResultDispatch))
         (set_posted (λ log, log ++ [(Terminate (forceTerminateShared f), [])])
            (set_terminations (alter finish i) t)))) as (E1 & E2 & E3 & E4 & E5).
    split; rewrite ?E3, ?E4, ?E5; simpl; [done|eauto 10|].
    intros j f' Hj. destruct (decide (i = j)) as [<-|Hne].
    + exists (finish f'). rewrite list_lookup_alter_eq, Hj. done.
    + exists f'. by rewrite list_lookup_alter_ne.
Qed.

Lemma Grows_run es t : Inv t → Grows t (run es t).
Proof.
  revert t. induction es as [|e es IH]; intros t H; [apply Grows_refl|].
  eapply Grows_trans; [by apply (Grows_turn e)|].
  apply IH. by apply Inv_turn.
Qed.


(** ** Threads used as concrete inputs *)

Lemma handshakingThread_spawn :
  Spawn DedicatedWorker None = Normal handshakingThread.
Proof. reflexivity. Qed.

Lemma readyThread_reachable : reachable readyThread.
Proof.
  exists DedicatedWorker, None, handshakingThread,
    [Deliver (MessageEvent (Init ["helloWorld"; "takesTime"]))].
  split; reflexivity.
Defined.

Lemma busyThread_reachable : reachable busyThread.
Proof.
  exists DedicatedWorker, None, handshakingThread,
    [Deliver (MessageEvent (Init ["helloWorld"; "takesTime"]));
     Invoke "takesTime" [JsNumber 250] "uid-1"].
  split; reflexivity.
Defined.

(** ** Accounting of pending tasks *)

Lemma numQueuedTasks_callProxy method rawArgs uid t :
  tasks t !! uid = None →
  numQueuedTasks (exec (callProxy (Proxy method) rawArgs uid) t)
  = S (numQueuedTasks t).
Proof.
  intros Hu. rewrite callProxy_exec. unfold numQueuedTasks. simpl.
  by apply map_size_insert_None.
Qed.

Lemma taskResultDispatch_tasks data uid s task t :
  HeapInv t → settlementOf data = Some (uid, s) →
  tasks t !! uid = Some task →
  tasks (exec (taskResultDispatch (MessageEvent data)) t) = delete uid (tasks t).
Proof.
  intros H Hd Hu. rewrite (taskResultDispatch_settles _ uid s task) by done.
  rewrite settle_frame by done. simpl. by rewrite (inv_key _ H _ _ Hu).
Qed.

(** C2.  [numQueuedTasks] is the size of the pending mapping.  A proxy call
    (of a method the thread exposes, with a UID no pending task has) leaves
    it one higher when the call returns; the message that settles a pending
    task leaves it one lower, and a further Result or Error with the same
    UID does not change it; it is a natural number. *)
Theorem numQueuedTasks_accounting (t : EsThread) :
  reachable t →
  numQueuedTasks t = size (tasks t)
  ∧ 0 ≤ numQueuedTasks t
  ∧ (∀ name rawArgs uid,
       spawned t = SpawnReturned → is_Some (methods t !! name) →
       tasks t !! uid = None →
       numQueuedTasks (turn (Invoke name rawArgs uid) t)
       = S (numQueuedTasks t))
  ∧ (∀ data uid s,
       settlementOf data = Some (uid, s) → is_Some (tasks t !! uid) →
       let t1 := exec (taskResultDispatch (MessageEvent data)) t in
       S (numQueuedTasks t1) = numQueuedTasks t
       ∧ ∀ data' s',
           settlementOf data' = Some (uid, s') →
           numQueuedTasks (exec (taskResultDispatch (MessageEvent data')) t1)
           = numQueuedTasks t1).
Proof.
  intros Hr. apply reachable_Inv in Hr as [HH HL].
  split_and!; [done|lia| |].
  - intros name rawArgs uid Hs [[method] Hm] Hu.
    unfold turn, whenReturned. rewrite Hs, invoke_exec, Hm.
    by apply numQueuedTasks_callProxy.
  - intros data uid s Hd [task Hu]. simpl.
    assert (tasks (exec (taskResultDispatch (MessageEvent data)) t)
            = delete uid (tasks t)) as Ht
      by by eapply taskResultDispatch_tasks.
    split.
    + unfold numQueuedTasks. rewrite Ht.
      rewrite map_size_delete, Hu.
      assert (size (tasks t) ≠ 0); [|lia].
      intros E. apply map_size_empty_inv in E. rewrite E in Hu.
      by rewrite lookup_empty in Hu.
    + intros data' s' Hd'.
      set (t1 := exec (taskResultDispatch (MessageEvent data)) t) in *.
      assert (tasks t1 !! uid = None) as Hn
        by (rewrite Ht; apply lookup_delete_eq).
      assert (∃ e, faultOf t1 (MessageEvent data') = Some e) as [e He].
      { destruct data'; simplify_eq/=; rewrite Hn; eauto. }
      by rewrite (taskResultDispatch_fault _ e).
Qed.

Lemma numQueuedTasks_accounting_witness :
  numQueuedTasks (turn (Invoke "helloWorld" [] "uid-2") busyThread) = 2
  ∧ numQueuedTasks
      (exec (taskResultDispatch
               (MessageEvent (TaskResult "uid-1" (JsString "Hello World!"))))
            busyThread) = 0.
Proof.
  destruct (numQueuedTasks_accounting busyThread busyThread_reachable)
    as (_ & _ & Hup & Hdown).
  split.
  - apply (Hup "helloWorld" [] "uid-2"); [reflexivity|by eexists|reflexivity].
  - destruct (Hdown (TaskResult "uid-1" (JsString "Hello World!")) "uid-1"
                (Resolve (JsString "Hello World!"))) as [H _];
      [reflexivity|by eexists|].
    simpl in H. change (numQueuedTasks busyThread) with 1 in H. lia.
Defined.

(** ** Routing of the messages of the worker *)

Lemma taskResultDispatch_settled_state data uid s task t :
  HeapInv t → settlementOf data = Some (uid, s) →
  tasks t !! uid = Some task →
  let t' := exec (taskResultDispatch (MessageEvent data)) t in
  promises t' !! promiseRef task = Some (settledState s)
  ∧ (∀ r, r ≠ promiseRef task → promises t' !! r = promises t !! r)
  ∧ settlements t' = settlements t ++ [(promiseRef task, s)]
  ∧ tasks t' = delete uid (tasks t)
  ∧ errorEvents t' = errorEvents t.
Proof.
  intros H Hd Hu. simpl.
  rewrite (taskResultDispatch_tasks data uid s task) by done.
  rewrite (taskResultDispatch_settles _ uid s task) by done.
  pose proof (inv_pending _ H _ _ Hu) as Hp.
  rewrite settle_exec by done. simpl. split_and!; try done.
  - apply list_lookup_insert_eq. by eapply lookup_lt_Some.
  - intros r Hr. by apply list_lookup_insert_ne.
Qed.

Lemma channelFault_faultOf t evt :
  channelFault t evt → ∃ e, faultOf t evt = Some e.
Proof.
  destruct evt as [[]|]; simpl; try (intros ->); eauto.
Qed.

(** C4.  A TaskResult for a pending UID fulfils the promise of that task
    with the result, a TaskError rejects it with an error made of the
    message; in both cases the entry leaves the mapping and no other promise
    changes.  An UncaughtError, a Result or Error for a UID that is not
    pending, and any other message add one error event to the thread and
    settle nothing. *)
Theorem taskResultDispatch_routes (t : EsThread) :
  reachable t →
  (∀ uid result task,
     tasks t !! uid = Some task →
     let t' := exec (taskResultDispatch (MessageEvent (TaskResult uid result))) t in
     promises t' !! promiseRef task = Some (Fulfilled result)
     ∧ (∀ r, r ≠ promiseRef task → promises t' !! r = promises t !! r)
     ∧ tasks t' = delete uid (tasks t)
     ∧ errorEvents t' = errorEvents t)
  ∧ (∀ uid errorMessage task,
     tasks t !! uid = Some task →
     let t' := exec (taskResultDispatch
                       (MessageEvent (TaskError uid errorMessage))) t in
     promises t' !! promiseRef task = Some (Rejected (Error errorMessage))
     ∧ (∀ r, r ≠ promiseRef task → promises t' !! r = promises t !! r)
     ∧ tasks t' = delete uid (tasks t)
     ∧ errorEvents t' = errorEvents t)
  ∧ (∀ evt,
     channelFault t evt →
     let t' := exec (taskResultDispatch evt) t in
     (∃ e, errorEvents t' = errorEvents t ++ [e])
     ∧ promises t' = promises t
     ∧ settlements t' = settlements t
     ∧ tasks t' = tasks t).
Proof.
  intros Hr. apply reachable_Inv in Hr as [HH HL]. split_and!.
  - intros uid result task Hu.
    destruct (taskResultDispatch_settled_state (TaskResult uid result) uid
                (Resolve result) task t) as (H1 & H2 & H3 & H4 & H5); done.
  - intros uid errorMessage task Hu.
    destruct (taskResultDispatch_settled_state (TaskError uid errorMessage) uid
                (Reject (Error errorMessage)) task t)
      as (H1 & H2 & H3 & H4 & H5); done.
  - intros evt [e He]%channelFault_faultOf. simpl.
    rewrite (taskResultDispatch_fault _ e) by done. simpl. eauto.
Qed.

Lemma taskResultDispatch_routes_witness :
  promises (exec (taskResultDispatch
                    (MessageEvent (TaskError "uid-1" "boom"))) busyThread) !! 0
  = Some (Rejected (Error "boom"))
  ∧ ∃ e, errorEvents
           (exec (taskResultDispatch (MessageEvent (UnchaughtError "oops")))
                 busyThread)
         = errorEvents busyThread ++ [e].
Proof.
  destruct (taskResultDispatch_routes busyThread busyThread_reachable)
    as (_ & Herr & Hfault).
  split.
  - apply (Herr "uid-1" "boom" {| taskUID := "uid-1"; promiseRef := 0 |}).
    reflexivity.
  - apply (Hfault (MessageEvent (UnchaughtError "oops"))). exact I.
Defined.

(** ** Eviction comes before settlement *)



(** ** Spawn never hands out a thread that is not initialised *)

Lemma tornDown_channelClosed t : tornDown t → channelClosed t = true.
Proof.
  unfold tornDown, channelClosed.
  destruct (worker t); [intros ->|intros ->|]; try done.
  by rewrite orb_true_r.
Qed.

Lemma turn_handshake_rejected e data t :
  Inv t → spawned t = SpawnPending →
  handshakeVerdict data = HandshakeRejected e →
  let t' := turn (Deliver (MessageEvent data)) t in
  spawned t' = SpawnRejected e ∧ tornDown t' ∧ methods t' = ∅.
Proof.
  intros [HH HL] Hs Hv. pose proof HL as [Hw HL']. rewrite Hs in HL'.
  destruct HL' as (Hh & Hl & Hm & Hc). cbv zeta.
  rewrite turn_handshake_message, Hv by done.
  erewrite initThread_resume_rejected by done.
  rewrite closeChannel_exec by done. unfold tornDown. simpl.
  by destruct (worker t) eqn:Ew; simpl; rewrite ?Ew.
Qed.



(** ** What the combinators show *)

Lemma stillPending_nil heap ins :
  stillPending heap ins = [] ↔ ∀ r, r ∈ ins → heap !! r ≠ Some Pending.
Proof.
  unfold stillPending. split.
  - intros E r Hin Hp.
    eapply (filter_nil_not_elem_of _ _ r E); [|done].
    unfold isPending. by rewrite Hp.
  - intros H. induction ins as [|r ins IH]; [done|].
    rewrite filter_cons, decide_False.
    + apply IH. intros r' Hr'. apply H. by right.
    + unfold isPending. specialize (H r (list_elem_of_here _ _)).
      by destruct (heap !! r) as [[]|].
Qed.

Lemma allSettled_outcome heap log a :
  AggregateInv heap log a → combinator a = PromiseAllSettled →
  (outcome a = Succeeded ↔ ∀ r, r ∈ inputs a → heap !! r ≠ Some Pending)
  ∧ (outcome a = Waiting ↔ ∃ r, r ∈ inputs a ∧ heap !! r = Some Pending)
  ∧ ∀ e, outcome a ≠ Failed e.
Proof.
  intros [Hv Ha Ho] Hc. rewrite Ho, Hc. unfold expectedOutcome.
  rewrite <- stillPending_nil.
  destruct (stillPending heap (inputs a)) as [|r l] eqn:E.
  - split_and!; [done| |done]. split; [done|].
    intros (r & Hin & Hp).
    by destruct (proj1 (stillPending_nil heap (inputs a)) E r Hin).
  - split_and!; [done| |done]. split; [|done]. intros _. exists r.
    assert (r ∈ stillPending heap (inputs a)) as Hr by (rewrite E; left).
    apply list_elem_of_filter in Hr as [Hp Hin]. split; [done|].
    unfold isPending in Hp. by destruct (heap !! r) as [[]|].
Qed.

Lemma firstRejection_Some ins log e :
  firstRejection ins log = Some e →
  ∃ r, r ∈ ins ∧ (r, Reject e) ∈ log.
Proof.
  unfold firstRejection. intros H.
  destruct (omap (rejectionIn ins) log) as [|e' l] eqn:E; [done|].
  simpl in H. injection H as ->.
  assert (e ∈ omap (rejectionIn ins) log) as He by (rewrite E; left).
  apply list_elem_of_omap in He as ([r s] & Hin & Hf).
  unfold rejectionIn in Hf. simpl in Hf. destruct s; [done|].
  case_decide; [|done]. injection Hf as ->. by exists r.
Qed.

Lemma firstRejection_is_Some ins log r e :
  r ∈ ins → (r, Reject e) ∈ log → is_Some (firstRejection ins log).
Proof.
  intros Hin Hlog. unfold firstRejection.
  assert (e ∈ omap (rejectionIn ins) log) as He.
  { apply list_elem_of_omap. exists (r, Reject e). split; [done|].
    unfold rejectionIn. simpl. by rewrite decide_True. }
  destruct (omap (rejectionIn ins) log); [by apply elem_of_nil in He|].
  by eexists.
Qed.

Lemma rejected_logged t r e :
  HeapInv t → promises t !! r = Some (Rejected e) →
  (r, Reject e) ∈ settlements t.
Proof.
  intros H Hr. destruct (inv_heap _ H _ _ Hr) as [?|[s Hs]]; [done|].
  pose proof (inv_log _ H _ _ Hs) as Hr'. rewrite Hr in Hr'.
  destruct s; simplify_eq/=. done.
Qed.

Lemma all_outcome t a :
  HeapInv t → a ∈ aggregates t → combinator a = PromiseAll →
  (outcome a = Succeeded ↔
     ∀ r, r ∈ inputs a → ∃ v, promises t !! r = Some (Fulfilled v))
  ∧ (∀ e, outcome a = Failed e ↔
          firstRejection (inputs a) (settlements t) = Some e)
  ∧ ((∃ r e, r ∈ inputs a ∧ promises t !! r = Some (Rejected e)) →
     ∃ e, outcome a = Failed e).
Proof.
  intros H Hin Hc. pose proof (inv_aggs _ H) as Ha.
  rewrite Forall_forall in Ha. destruct (Ha a Hin) as [Hv Haw Ho].
  rewrite Ho, Hc. unfold expectedOutcome.
  destruct (firstRejection (inputs a) (settlements t)) as [e0|] eqn:Ef.
  - split_and!.
    + split; [done|]. intros Hall.
      apply firstRejection_Some in Ef as (r & Hr & Hlog).
      apply (inv_log _ H) in Hlog. destruct (Hall r Hr) as [v Hv'].
      rewrite Hv' in Hlog. done.
    + intros e. split; congruence.
    + intros _. by exists e0.
  - assert (∀ r e, r ∈ inputs a → promises t !! r ≠ Some (Rejected e)) as Hnr.
    { intros r e Hr Hrej. apply rejected_logged in Hrej; [|done].
      destruct (firstRejection_is_Some _ _ _ _ Hr Hrej) as [? ?]. congruence. }
    split_and!.
    + destruct (stillPending (promises t) (inputs a)) as [|r l] eqn:E.
      * split; [|done]. intros _ r Hr.
        pose proof (proj1 (stillPending_nil _ _) E r Hr) as Hnp.
        specialize (Hv r Hr). apply lookup_lt_is_Some_2 in Hv as [st Hst].
        destruct st as [|v|e]; [done|by exists v|by destruct (Hnr r e Hr)].
      * split; [done|]. intros Hall.
        assert (r ∈ stillPending (promises t) (inputs a)) as Hr
          by (rewrite E; left).
        apply list_elem_of_filter in Hr as [Hp Hr].
        destruct (Hall r Hr) as [v Hv']. unfold isPending in Hp.
        by rewrite Hv' in Hp.
    + intros e. by destruct (stillPending (promises t) (inputs a)).
    + intros (r & e & Hr & Hrej). by destruct (Hnr r e Hr).
Qed.

(** The combinator built by a call stays in place, over the same promises. *)
Lemma promiseCombinator_registered c es t :
  Inv t →
  ∃ a, aggregates (run es (exec (promiseCombinator c) t))
       !! length (aggregates t) = Some a
       ∧ combinator a = c
       ∧ inputs a = promiseRef <$> taskValues t.
Proof.
  intros [HH HL].
  assert (HeapInv (exec (promiseCombinator c) t)) as HH'
    by by apply HeapInv_promiseCombinator.
  assert (LifeInv (exec (promiseCombinator c) t)) as HL' by done.
  destruct (grows_aggs _ _ (Grows_run es _ (conj HH' HL'))
              (length (aggregates t))
              (newAggregate c (promiseRef <$> taskValues t) (promises t)))
    as (a & Ha & Ec & Ei).
  { simpl. by apply list_lookup_middle. }
  by exists a.
Qed.

Lemma resolved_call_spec t es :
  Inv t → spawned t = SpawnReturned →
  let pendingAtCall := promiseRef <$> taskValues t in
  let t' := run es (turn CallResolved t) in
  ∃ o, outcomeOf t' (length (aggregates t)) = Some o
    ∧ (o = Succeeded ↔
         ∀ r, r ∈ pendingAtCall → ∃ v, promises t' !! r = Some (Fulfilled v))
    ∧ (∀ e, o = Failed e ↔
            firstRejection pendingAtCall (settlements t') = Some e)
    ∧ ((∃ r e, r ∈ pendingAtCall ∧ promises t' !! r = Some (Rejected e)) →
       ∃ e, o = Failed e).
Proof.
  intros Hinv Hs. cbv zeta.
  assert (Inv (run es (turn CallResolved t))) as [HH' _]
    by by apply Inv_run, Inv_turn.
  revert HH'. unfold turn, whenReturned. rewrite Hs. intros HH'.
  destruct (promiseCombinator_registered PromiseAll es t Hinv)
    as (a & Ha & Hc & Hi).
  exists (outcome a). unfold outcomeOf, resolved. rewrite Ha.
  split; [done|]. rewrite <- Hi.
  apply all_outcome; [done| |done]. by eapply list_elem_of_lookup_2.
Qed.

Lemma settled_call_spec t es :
  Inv t → spawned t = SpawnReturned →
  let pendingAtCall := promiseRef <$> taskValues t in
  let t' := run es (turn CallSettled t) in
  ∃ o, outcomeOf t' (length (aggregates t)) = Some o
    ∧ (∀ e, o ≠ Failed e)
    ∧ (o = Succeeded ↔
         ∀ r, r ∈ pendingAtCall → promises t' !! r ≠ Some Pending).
Proof.
  intros Hinv Hs. cbv zeta.
  assert (Inv (run es (turn CallSettled t))) as [HH' _]
    by by apply Inv_run, Inv_turn.
  revert HH'. unfold turn, whenReturned. rewrite Hs. intros HH'.
  destruct (promiseCombinator_registered PromiseAllSettled es t Hinv)
    as (a & Ha & Hc & Hi).
  exists (outcome a). unfold outcomeOf, settled. rewrite Ha.
  split; [done|]. rewrite <- Hi.
  pose proof (inv_aggs _ HH') as Haggs. rewrite Forall_lookup in Haggs.
  destruct (allSettled_outcome _ _ a (Haggs _ _ Ha) Hc) as (H1 & _ & H3).
  done.
Qed.

(** C6.  [resolved()], called when the tasks [pendingAtCall] are pending,
    yields a promise that succeeds exactly when all of them are fulfilled and
    that fails with the reason of the first of them to be rejected, as soon
    as one is rejected and whatever the state of the others; [settled()]
    yields a promise that succeeds exactly when none of them is pending any
    more and that never fails. *)
Theorem resolved_and_settled (t : EsThread) (es : list Turn) :
  reachable t → spawned t = SpawnReturned →
  let pendingAtCall := promiseRef <$> taskValues t in
  let k := length (aggregates t) in
  (let t' := run es (turn CallResolved t) in
   ∃ o, outcomeOf t' k = Some o
     ∧ (o = Succeeded ↔
          ∀ r, r ∈ pendingAtCall → ∃ v, promises t' !! r = Some (Fulfilled v))
     ∧ (∀ e, o = Failed e ↔
             firstRejection pendingAtCall (settlements t') = Some e)
     ∧ ((∃ r e, r ∈ pendingAtCall ∧ promises t' !! r = Some (Rejected e)) →
        ∃ e, o = Failed e))
  ∧ (let t' := run es (turn CallSettled t) in
     ∃ o, outcomeOf t' k = Some o
       ∧ (∀ e, o ≠ Failed e)
       ∧ (o = Succeeded ↔
            ∀ r, r ∈ pendingAtCall → promises t' !! r ≠ Some Pending)).
Proof.
  intros Hr Hs. pose proof (reachable_Inv _ Hr) as Hinv. split.
  - by apply resolved_call_spec.
  - by apply settled_call_spec.
Qed.

Lemma resolved_and_settled_witness :
  let es := [Deliver (MessageEvent (TaskError "uid-1" "boom"))] in
  let k := length (aggregates busyThread) in
  outcomeOf (run es (turn CallResolved busyThread)) k
  = Some (Failed (Error "boom"))
  ∧ outcomeOf (run es (turn CallSettled busyThread)) k = Some Succeeded.
Proof.
  cbv zeta.
  destruct (resolved_and_settled busyThread
              [Deliver (MessageEvent (TaskError "uid-1" "boom"))]
              busyThread_reachable) as [(o1 & E1 & _ & Hf & _) (o2 & E2 & _ & Hs)];
    [reflexivity|].
  split.
  - rewrite E1. f_equal. apply Hf. vm_compute. reflexivity.
  - rewrite E2. f_equal. apply Hs. vm_compute. intros r Hr.
    apply list_elem_of_singleton in Hr as ->. discriminate.
Defined.

(** ** terminate drains before it closes *)

Lemma terminateTail_spec i f t :
  worker t ≠ ServiceWorker →
  posted (terminateTail i f t)
  = posted t ++ [(Terminate (forceTerminateShared f), [])]
  ∧ listeners (terminateTail i f t)
    = filter (λ l, l ≠ TaskResultDispatch) (listeners t)
  ∧ tornDown (terminateTail i f t).
Proof.
  intros Hw. unfold terminateTail, tornDown.
  rewrite closeChannel_exec by done. simpl.
  by destruct (worker t) eqn:Ew; simpl; rewrite ?Ew.
Qed.

Lemma turn_resume_returned i t :
  spawned t = SpawnReturned → turn (Resume i) t = exec (terminate_resume i) t.
Proof. intros Hs. unfold turn, whenReturned. by rewrite Hs. Qed.

Lemma terminate_registered force es t :
  Inv t →
  ∃ f a,
    terminations (run es (exec (terminate force) t))
      !! length (terminations t) = Some f
    ∧ forceTerminateShared f = force
    ∧ aggregates (run es (exec (terminate force) t)) !! awaited f = Some a
    ∧ combinator a = PromiseAllSettled
    ∧ inputs a = promiseRef <$> taskValues t.
Proof.
  intros [HH HL].
  assert (Inv (exec (terminate force) t)) as Hinv.
  { split; [by apply HeapInv_terminate|]. rewrite terminate_exec.
    destruct HL as [Hw HL]. split; [done|]. simpl.
    destruct (spawned t); [done| |done].
    destruct HL as (Hm & Hl & Hc). split_and!; [done..|].
    intros Hcl. apply Hc in Hcl as (i & f & Hi & Hf). exists i, f.
    split; [|done]. simpl. by apply lookup_app_l_Some. }
  pose proof (Grows_run es _ Hinv) as [_ Ga Gt].
  destruct (Gt (length (terminations t))
               {| awaited := length (aggregates t);
                  forceTerminateShared := force; finished := false |})
    as (f & Hf & Ea & Ef & _).
  { rewrite terminate_exec. simpl. by apply list_lookup_middle. }
  destruct (Ga (length (aggregates t))
              (newAggregate PromiseAllSettled (promiseRef <$> taskValues t)
                 (promises t))) as (a & Ha & Ec & Ei).
  { rewrite terminate_exec. simpl. by apply list_lookup_middle. }
  exists f, a. simpl in Ea. rewrite Ea. by split_and!.
Qed.

Lemma terminate_call_spec t force es :
  Inv t → spawned t = SpawnReturned →
  terminateCallWaits t force (turn (CallTerminate force) t)
    (run es (turn (CallTerminate force) t)).
Proof.
  intros Hinv Hs. unfold terminateCallWaits. cbv zeta.
  assert (turn (CallTerminate force) t = exec (terminate force) t) as Ht1
    by (unfold turn, whenReturned; by rewrite Hs).
  assert (Inv (run es (turn (CallTerminate force) t))) as Hinv2
    by by apply Inv_run, Inv_turn.
  assert (spawned (run es (turn (CallTerminate force) t)) = SpawnReturned)
    as Hs2.
  { rewrite spawned_stays; [|by apply Inv_turn|];
      rewrite spawned_stays_turn; by rewrite ?Hs. }
  pose proof Hinv2 as [HH2 [Hw2 HL2]]. rewrite Hs2 in HL2.
  destruct HL2 as (_ & Hl2 & Hc2).
  pose proof (inv_aggs _ HH2) as Haggs. rewrite Forall_lookup in Haggs.
  pose proof (inv_terms _ HH2) as Hterms. rewrite Forall_lookup in Hterms.
  split_and!.
  - by rewrite Ht1, terminate_exec.
  - by rewrite Ht1, terminate_exec.
  - by rewrite Ht1, terminate_exec.
  - destruct (terminate_registered force es t Hinv)
      as (f & a & Hf & Eforce & Ha & Hc & Hi).
    rewrite <- Ht1 in Hf, Ha. exists f, a. rewrite <- Hi.
    split_and!; [done..| |].
    + intros Hpending.
      destruct (allSettled_outcome _ _ a (Haggs _ _ Ha) Hc) as (_ & Hw & _).
      apply Hw in Hpending.
      assert (finished f = false) as Hfin.
      { destruct (finished f) eqn:E; [|done].
        destruct (Hterms _ _ Hf) as (a' & Ha' & _ & Hdone).
        rewrite Ha in Ha'. injection Ha' as <-.
        rewrite Hdone in Hpending by done. done. }
      split; [done|]. rewrite turn_resume_returned by done.
      eapply terminate_resume_suspended; [done..|].
      unfold outcomeOf. by rewrite Ha, <- Hpending.
    + intros Hall Hfin.
      destruct (allSettled_outcome _ _ a (Haggs _ _ Ha) Hc) as (Hok & _ & _).
      apply Hok in Hall. cbv zeta. rewrite turn_resume_returned by done.
      erewrite terminate_resume_runs;
        [|done..|unfold outcomeOf; by rewrite Ha, <- Hall].
      destruct (terminateTail_spec (length (terminations t)) f
                  (run es (turn (CallTerminate force) t)) Hw2)
        as (E1 & E2 & E3).
      rewrite E1, E2, Eforce. split_and!; [done| |done|].
      * destruct Hl2 as [-> | ->]; apply not_elem_of_nil.
      * by apply tornDown_channelClosed.
  - intros Hclosed. destruct (Hc2 Hclosed) as (j & f & Hj & Hfin).
    destruct (Hterms _ _ Hj) as (a & Ha & Hc & Hdone).
    exists j, f, a. split_and!; [done..|].
    destruct (allSettled_outcome _ _ a (Haggs _ _ Ha) Hc) as (Hok & _ & _).
    by apply Hok, Hdone.
Qed.





(** Calls of [terminate] that overlap each close on their own snapshot: the
    first one below is made when nothing is pending, so its resumption closes
    the channel although the task invoked after it, which the second call
    waits for, is still pending. *)
Example overlapping_terminate_calls :
  let t := run [CallTerminate None;
                Invoke "takesTime" [JsNumber 250] "uid-1";
                CallTerminate None;
                Resume 0] readyThread in
  channelClosed t = true
  ∧ promises t = [Pending]
  ∧ finished <$> terminations t = [true; false].
Proof. cbv zeta. split_and!; reflexivity. Qed.

(** ** Properties of the pool *)

(** ** Least-loaded selection *)

Lemma leastLoadedFrom_spec ts best bestLoad i :
  (leastLoadedFrom best bestLoad i ts = best
   ∧ Forall (λ t, bestLoad ≤ numQueuedTasks t) ts)
  ∨ (∃ k t,
       leastLoadedFrom best bestLoad i ts = i + k
       ∧ ts !! k = Some t
       ∧ numQueuedTasks t < bestLoad
       ∧ Forall (λ t', numQueuedTasks t ≤ numQueuedTasks t') ts
       ∧ ∀ k' t', k' < k → ts !! k' = Some t' →
                  numQueuedTasks t < numQueuedTasks t').
Proof.
  revert best bestLoad i.
  induction ts as [|t ts IH]; intros best bestLoad i; [by left|].
  simpl. case_decide as Hlt.
  - right. destruct (IH i (numQueuedTasks t) (S i))
      as [[-> Hall]|(k & t2 & -> & Hk & Hlt2 & Hall & Hearly)].
    + exists 0, t. rewrite Nat.add_0_r.
      split_and!; [done..|by constructor|intros; lia].
    + exists (S k), t2. split_and!; [lia|done|lia| |].
      * constructor; [lia|done].
      * intros [|k'] t' Hk' Ht'; simplify_eq/=; [lia|].
        eapply Hearly; [|done]. lia.
  - destruct (IH best bestLoad (S i))
      as [[-> Hall]|(k & t2 & -> & Hk & Hlt2 & Hall & Hearly)].
    + left. split; [done|]. constructor; [lia|done].
    + right. exists (S k), t2. split_and!; [lia|done|lia| |].
      * constructor; [lia|done].
      * intros [|k'] t' Hk' Ht'; simplify_eq/=; [lia|].
        eapply Hearly; [|done]. lia.
Qed.

Lemma leastLoaded_spec ts i :
  leastLoaded ts = Some i → firstLeastLoaded ts i.
Proof.
  destruct ts as [|t0 ts]; [done|]. simpl. intros [= <-].
  destruct (leastLoadedFrom_spec ts 0 (numQueuedTasks t0) 1)
    as [[-> Hall]|(k & t2 & -> & Hk & Hlt2 & Hall & Hearly)].
  - exists t0. split_and!; [done| |intros; lia].
    intros [|j] t' Hj; simplify_eq/=; [done|].
    rewrite Forall_lookup in Hall. by eapply Hall.
  - exists t2. split_and!; [done| |].
    + intros [|j] t' Hj; simplify_eq/=; [lia|].
      rewrite Forall_lookup in Hall. by eapply Hall.
    + intros [|j] t' Hlt Hj; simplify_eq/=; [lia|].
      eapply Hearly; [|done]. lia.
Qed.

Lemma firstLeastLoaded_unique ts i j :
  firstLeastLoaded ts i → firstLeastLoaded ts j → i = j.
Proof.
  intros (ti & Hi & Hmin_i & Hearly_i) (tj & Hj & Hmin_j & Hearly_j).
  destruct (decide (i = j)) as [|Hne]; [done|]. exfalso.
  destruct (decide (i < j)) as [Hlt|Hge].
  - pose proof (Hearly_j i ti Hlt Hi). pose proof (Hmin_i j tj Hj). lia.
  - assert (j < i) as Hlt by lia.
    pose proof (Hearly_i j tj Hlt Hj). pose proof (Hmin_j i ti Hi). lia.
Qed.

Lemma leastLoaded_intro ts i : firstLeastLoaded ts i → leastLoaded ts = Some i.
Proof.
  intros Hi. destruct (leastLoaded ts) as [j|] eqn:Hj.
  - f_equal. apply leastLoaded_spec in Hj. by eapply firstLeastLoaded_unique.
  - destruct ts; [|done]. by destruct Hi as (t & Ht & _).
Qed.

Lemma invoking_enqueues name rawArgs uid pool :
  Forall (λ t, spawned t = SpawnReturned ∧ is_Some (methods t !! name))
         (threads pool) →
  enqueues (invoking name rawArgs uid) pool.
Proof.
  intros Hall t Hin Hidle. rewrite Forall_forall in Hall.
  destruct (Hall t Hin) as [Hs [[method] Hm]].
  unfold invoking, run. simpl. unfold whenReturned.
  rewrite Hs, invoke_exec, Hm, numQueuedTasks_callProxy; [lia|].
  unfold numQueuedTasks in Hidle. apply map_size_empty_inv in Hidle.
  by rewrite Hidle, lookup_empty.
Qed.

Lemma queue_selected cb pool i :
  leastLoaded (threads pool) = Some i →
  queue cb pool = (Some i, set_threads (alter (run cb) i) pool).
Proof. intros H. unfold queue. by rewrite H. Qed.

Lemma queueAll_idle orig cbs busy idle opts calls :
  Forall (λ t, 0 < numQueuedTasks t) busy →
  Forall (λ t, numQueuedTasks t = 0 ∧ t ∈ threads orig) idle →
  length cbs ≤ length idle →
  Forall (λ cb, enqueues cb orig) cbs →
  (queueAll cbs {| threads := busy ++ idle; poolOptions := opts;
                   settledCalls := calls |}).1
  = Some <$> seq (length busy) (length cbs).
Proof.
  revert busy idle. induction cbs as [|cb cbs IH]; intros busy idle Hb Hi Hl Hcb;
    [done|].
  destruct idle as [|t idle]; [simpl in Hl; lia|].
  apply Forall_cons in Hi as [[Ht Hin] Hi].
  apply Forall_cons in Hcb as [Hcb Hcbs].
  assert (leastLoaded (busy ++ t :: idle) = Some (length busy)) as Hsel.
  { apply leastLoaded_intro. exists t. split_and!.
    - by apply list_lookup_middle.
    - intros; lia.
    - intros j t' Hj Hlook. rewrite lookup_app_l in Hlook by done.
      rewrite Forall_lookup in Hb. specialize (Hb _ _ Hlook). simpl in Hb. lia. }
  cbn [queueAll]. rewrite (queue_selected cb _ (length busy)) by done.
  unfold set_threads. simpl threads. simpl poolOptions. simpl settledCalls.
  assert (alter (run cb) (length busy) (busy ++ t :: idle)
          = (busy ++ [run cb t]) ++ idle) as ->.
  { rewrite <- app_assoc. simpl.
    rewrite alter_app_r_alt by done. by rewrite Nat.sub_diag. }
  specialize (IH (busy ++ [run cb t]) idle).
  destruct (queueAll cbs _) as [selected pool''] eqn:E. simpl in *.
  rewrite IH; [|apply Forall_app; split; [done|]|done|lia|done].
  - f_equal. rewrite length_app. simpl. by rewrite Nat.add_1_r.
  - apply Forall_singleton. by apply Hcb.
Qed.

Lemma twoThreadPool_spawn :
  poolSpawn (λ _, readyThread) {| poolSize := 2; poolName := "EsThreadPool" |}
  = Normal twoThreadPool.
Proof. reflexivity. Qed.

(** C5.  [queue] selects a member with the fewest pending tasks, the first
    of them in spawn order, and runs the callback on it before it returns.
    So when two members are idle, two calls of [queue] whose callbacks
    enqueue a task select two different members; and when all members are
    idle, as many calls as there are members select them all, one each, in
    spawn order. *)
Theorem queue_least_loaded (pool : EsThreadPool) :
  (∀ cb, threads pool ≠ [] →
     ∃ i t,
       queue cb pool = (Some i, set_threads (alter (run cb) i) pool)
       ∧ threads pool !! i = Some t
       ∧ (∀ j t', threads pool !! j = Some t' →
                  numQueuedTasks t ≤ numQueuedTasks t')
       ∧ (∀ j t', j < i → threads pool !! j = Some t' →
                  numQueuedTasks t < numQueuedTasks t')
       ∧ threads (queue cb pool).2 !! i = Some (run cb t))
  ∧ (∀ cb1 cb2 a b ta tb,
       a ≠ b → threads pool !! a = Some ta → threads pool !! b = Some tb →
       numQueuedTasks ta = 0 → numQueuedTasks tb = 0 →
       enqueues cb1 pool →
       ∃ i1 i2,
         (queue cb1 pool).1 = Some i1
         ∧ (queue cb2 (queue cb1 pool).2).1 = Some i2
         ∧ i1 ≠ i2)
  ∧ (∀ cbs,
       Forall (λ t, numQueuedTasks t = 0) (threads pool) →
       length cbs = length (threads pool) →
       Forall (λ cb, enqueues cb pool) cbs →
       (queueAll cbs pool).1 = Some <$> seq 0 (length (threads pool))
       ∧ NoDup (queueAll cbs pool).1).
Proof.
  split_and!.
  - intros cb Hne. destruct (leastLoaded (threads pool)) as [i|] eqn:Hsel;
      [|by destruct (threads pool)].
    pose proof (leastLoaded_spec _ _ Hsel) as (t & Hi & Hmin & Hearly).
    exists i, t. rewrite (queue_selected cb pool i) by done.
    split_and!; [done..|]. simpl. by rewrite list_lookup_alter_eq, Hi.
  - intros cb1 cb2 a b ta tb Hab Ha Hb Hia Hib Hcb.
    destruct (leastLoaded (threads pool)) as [i1|] eqn:Hsel1;
      [|destruct (threads pool); [by rewrite lookup_nil in Ha|done]].
    pose proof (leastLoaded_spec _ _ Hsel1) as (t1 & Hi1 & Hmin1 & _).
    rewrite (queue_selected cb1 pool i1) by done. simpl.
    assert (numQueuedTasks t1 = 0) as Hidle1
      by (specialize (Hmin1 a ta Ha); lia).
    assert (0 < numQueuedTasks (run cb1 t1)) as Hbusy.
    { apply Hcb; [|done]. by eapply list_elem_of_lookup_2. }
    set (ts1 := alter (run cb1) i1 (threads pool)).
    assert (∃ c tc, c ≠ i1 ∧ ts1 !! c = Some tc ∧ numQueuedTasks tc = 0)
      as (c & tc & Hc & Htc & Hic).
    { destruct (decide (a = i1)) as [->|Hne].
      - exists b, tb. split_and!; [done| |done].
        unfold ts1. by rewrite list_lookup_alter_ne.
      - exists a, ta. split_and!; [done| |done].
        unfold ts1. by rewrite list_lookup_alter_ne. }
    destruct (leastLoaded ts1) as [i2|] eqn:Hsel2;
      [|destruct ts1; [by rewrite lookup_nil in Htc|done]].
    pose proof (leastLoaded_spec _ _ Hsel2) as (t2 & Hi2 & Hmin2 & _).
    exists i1, i2. unfold queue. simpl. fold ts1. rewrite Hsel2.
    split_and!; [done..|]. intros ->.
    unfold ts1 in Hi2. rewrite list_lookup_alter_eq, Hi1 in Hi2.
    injection Hi2 as <-. specialize (Hmin2 c tc Htc). lia.
  - intros cbs Hidle Hlen Hcbs.
    assert ((queueAll cbs pool).1 = Some <$> seq 0 (length (threads pool)))
      as Heq.
    { destruct pool as [ts opts calls]. simpl in *. rewrite <- Hlen.
      apply (queueAll_idle {| threads := ts; poolOptions := opts;
                              settledCalls := calls |} cbs [] ts);
        [done| |lia|done].
      rewrite Forall_forall in Hidle. apply Forall_forall. intros t Ht.
      split; [by apply Hidle|done]. }
    split; [done|]. rewrite Heq. apply NoDup_fmap_2; [|apply NoDup_seq].
    by intros ?? [=].
Qed.

Lemma queue_least_loaded_witness :
  (queueAll [invoking "takesTime" [JsNumber 250] "uid-1";
             invoking "takesTime" [JsNumber 250] "uid-2"] twoThreadPool).1
  = [Some 0; Some 1].
Proof.
  destruct (queue_least_loaded twoThreadPool) as (_ & _ & Hall).
  apply (Hall [invoking "takesTime" [JsNumber 250] "uid-1";
               invoking "takesTime" [JsNumber 250] "uid-2"]).
  - repeat constructor.
  - reflexivity.
  - repeat constructor; apply invoking_enqueues;
      repeat constructor; by eexists.
Defined.

(** ** The pool waits member by member *)

Lemma poolTurn_member P e pool i t :
  memberAllows P e → threads pool !! i = Some t →
  ∃ es_i, Forall P es_i ∧ threads (poolTurn e pool) !! i = Some (run es_i t).
Proof.
  intros HP Hi. destruct e as [j e'|cb| |]; simpl in *.
  - destruct (decide (j = i)) as [->|Hne].
    + exists [e']. split; [by constructor|].
      by rewrite list_lookup_alter_eq, Hi.
    + exists []. split; [done|]. by rewrite list_lookup_alter_ne.
  - unfold queue. destruct (leastLoaded (threads pool)) as [j|];
      [|exists []; by split].
    simpl. destruct (decide (j = i)) as [->|Hne].
    + exists cb. split; [done|]. by rewrite list_lookup_alter_eq, Hi.
    + exists []. split; [done|]. by rewrite list_lookup_alter_ne.
  - exists [CallSettled]. split; [by constructor|].
    by rewrite list_lookup_fmap, Hi.
  - exists [CallTerminate None]. split; [by constructor|].
    by rewrite list_lookup_fmap, Hi.
Qed.

Lemma poolRun_member P es pool i t :
  Forall (memberAllows P) es → threads pool !! i = Some t →
  ∃ es_i, Forall P es_i ∧ threads (poolRun es pool) !! i = Some (run es_i t).
Proof.
  revert pool t. induction es as [|e es IH]; intros pool t HP Hi.
  - exists []. by split.
  - apply Forall_cons in HP as [He HP].
    destruct (poolTurn_member P e pool i t He Hi) as (es1 & HP1 & Hi1).
    destruct (IH _ _ HP Hi1) as (es2 & HP2 & Hi2).
    exists (es1 ++ es2). split; [by apply Forall_app|].
    by rewrite run_app.
Qed.

Lemma poolTurn_length e pool :
  length (threads (poolTurn e pool)) = length (threads pool).
Proof.
  destruct e as [j e'|cb| |]; simpl;
    rewrite ?length_alter, ?length_fmap; try done.
  unfold queue. destruct (leastLoaded (threads pool)); simpl;
    by rewrite ?length_alter.
Qed.

Lemma poolRun_length es pool :
  length (threads (poolRun es pool)) = length (threads pool).
Proof.
  revert pool. induction es as [|e es IH]; intros pool; [done|].
  simpl. by rewrite IH, poolTurn_length.
Qed.

Lemma poolRun_settledCalls es pool k w :
  settledCalls pool !! k = Some w →
  settledCalls (poolRun es pool) !! k = Some w.
Proof.
  revert pool. induction es as [|e es IH]; intros pool Hk; [done|].
  simpl. apply IH. destruct e as [j e'|cb| |]; simpl; try done.
  - unfold queue. by destruct (leastLoaded (threads pool)).
  - by apply lookup_app_l_Some.
Qed.

Lemma tasks_shrink_turn e t :
  Inv t → notInvoke e → tasks (turn e t) ⊆ tasks t.
Proof.
  intros H Hni. pose proof H as [HH HL].
  destruct (turn_effect e t H) as [e t' Hsame _|evt Hl|name method rawArgs uid Hm
    | | |force|i f Hi Hf Ho]; try done.
  - destruct Hsame as (-> & _). done.
  - destruct (faultOf t evt) as [err|] eqn:Hfault.
    + by rewrite (taskResultDispatch_fault _ err).
    + apply faultOf_None in Hfault as (data & u & s & task & -> & Hd & Hu).
      rewrite (taskResultDispatch_tasks data u s task) by done.
      apply delete_subseteq.
  - unfold terminateTail.
    destruct (closeChannel_heap
      (set_listeners (filter (λ l, l ≠ TaskResultDispatch))
         (set_posted (λ log, log ++ [(Terminate (forceTerminateShared f), [])])
            (set_terminations (alter finish i) t)))) as (-> & _). done.
Qed.

Lemma tasks_shrink es t :
  Inv t → Forall notInvoke es → tasks (run es t) ⊆ tasks t.
Proof.
  revert t. induction es as [|e es IH]; intros t H Hni; [done|].
  apply Forall_cons in Hni as [He Hni]. simpl.
  etrans; [apply IH; [by apply Inv_turn|done]|by apply tasks_shrink_turn].
Qed.

(** Without further calls, a thread whose tasks of some moment have all
    settled has nothing pending. *)
Lemma drained_idle es t :
  Inv t → Forall notInvoke es →
  (∀ r, r ∈ promiseRef <$> taskValues t →
        promises (run es t) !! r ≠ Some Pending) →
  numQueuedTasks (run es t) = 0.
Proof.
  intros H Hni Hall. pose proof (Inv_run es t H) as [HH' _].
  unfold numQueuedTasks.
  assert (tasks (run es t) = ∅) as ->; [|apply map_size_empty].
  apply map_empty. intros uid.
  destruct (tasks (run es t) !! uid) as [task|] eqn:Hu; [|done]. exfalso.
  pose proof (inv_pending _ HH' _ _ Hu) as Hp.
  apply (Hall (promiseRef task)); [|done].
  apply list_elem_of_fmap. exists task. split; [done|].
  apply taskValues_spec. exists uid.
  eapply lookup_weaken; [exact Hu|]. by apply tasks_shrink.
Qed.

Lemma memberAllows_dec es :
  Forall (memberAllows notInvoke) es ∨ ¬ Forall (memberAllows notInvoke) es.
Proof.
  assert (∀ e, notInvoke e ∨ ¬ notInvoke e) as Hd
    by (intros []; simpl; tauto).
  assert (∀ cb, Forall notInvoke cb ∨ ¬ Forall notInvoke cb) as Hcb.
  { induction cb as [|e cb [IH|IH]]; [by left| |].
    - destruct (Hd e); [left; by constructor|right].
      by intros [? ?]%Forall_cons.
    - right. by intros [? ?]%Forall_cons. }
  induction es as [|e es [IH|IH]]; [by left| |].
  - assert (memberAllows notInvoke e ∨ ¬ memberAllows notInvoke e) as [He|He].
    { destruct e; simpl; auto. }
    + left. by constructor.
    + right. by intros [? ?]%Forall_cons.
  - right. by intros [? ?]%Forall_cons.
Qed.

Lemma pool_member_after e pool es i t t' :
  (e = PoolSettled ∨ e = PoolTerminate) →
  threads pool !! i = Some t →
  threads (poolRun es (poolTurn e pool)) !! i = Some t' →
  ∃ es_i, t' = run es_i (turn (match e with
                               | PoolTerminate => CallTerminate None
                               | _ => CallSettled
                               end) t)
          ∧ (Forall (memberAllows notInvoke) es → Forall notInvoke es_i).
Proof.
  intros He Hi Hi'.
  assert (threads (poolTurn e pool) !! i
          = Some (turn (match e with
                        | PoolTerminate => CallTerminate None
                        | _ => CallSettled
                        end) t)) as Hi1.
  { destruct He as [-> | ->]; simpl; by rewrite list_lookup_fmap, Hi. }
  destruct (memberAllows_dec es) as [Hni|Hni].
  - destruct (poolRun_member notInvoke es _ i _ Hni Hi1) as (es_i & HP & Hlook).
    exists es_i. rewrite Hlook in Hi'. by simplify_eq.
  - assert (Forall (memberAllows (λ _, True)) es) as Hany.
    { clear. induction es as [|e' es IH]; constructor; [|done].
      destruct e'; simpl; try done. by apply Forall_true. }
    destruct (poolRun_member (λ _, True) es _ i _ Hany Hi1)
      as (es_i & _ & Hlook).
    exists es_i. rewrite Hlook in Hi'. split; [by simplify_eq|done].
Qed.

(** C8, as stated, fails.  After [pool.terminate()] the idle member closes
    its channel while the other member still has its task pending; and a
    call of [pool.settled()] resolves while a member has a task pending that
    was invoked after the call, the count of that member never having been 0
    since the call. *)
Lemma pool_drains_member_by_member_only :
  (let pool' := poolRun [PoolTerminate; Member 0 (Resume 0)] unevenPool in
   channelClosed <$> threads pool' = [true; false]
   ∧ numQueuedTasks <$> threads pool' = [0; 1])
  ∧ (let es := [PoolSettled;
                Member 1 (Invoke "helloWorld" [] "uid-3");
                Member 1 (Deliver (MessageEvent
                            (TaskResult "uid-2" (JsString "Hello World!"))))] in
     poolSettledResolved (poolRun es unevenPool) 0
     ∧ (λ n, numQueuedTasks <$> threads (poolRun (take n es) unevenPool))
         <$> [1; 2; 3]
       = [[0; 1]; [0; 2]; [0; 1]]).
Proof.
  split.
  - split; reflexivity.
  - split; [|reflexivity].
    eexists. split; [reflexivity|]. repeat constructor.
Qed.

(** C8, amended.  A call of [pool.settled()] has resolved exactly when the
    [settled()] of every member has, that is when every task that was pending
    on a member at the call has settled; if no method was invoked in between,
    every member then has no pending task.  [pool.terminate()] calls the
    [terminate()] of every member, and each of these calls waits for the
    tasks pending on its own member, as any call of [terminate] does. *)
Theorem pool_waits_member_by_member (pool : EsThreadPool) (es : list PoolTurn) :
  poolMembers pool →
  (let k := length (settledCalls pool) in
   let pool' := poolRun es (poolTurn PoolSettled pool) in
   (poolSettledResolved pool' k ↔
      ∀ i t t', threads pool !! i = Some t → threads pool' !! i = Some t' →
                outcomeOf t' (length (aggregates t)) = Some Succeeded)
   ∧ (poolSettledResolved pool' k ↔
        ∀ i t t', threads pool !! i = Some t → threads pool' !! i = Some t' →
                  ∀ r, r ∈ promiseRef <$> taskValues t →
                       promises t' !! r ≠ Some Pending)
   ∧ (Forall (memberAllows notInvoke) es → poolSettledResolved pool' k →
      Forall (λ t', numQueuedTasks t' = 0) (threads pool')))
  ∧ (let pool' := poolRun es (poolTurn PoolTerminate pool) in
     ∀ i t t', threads pool !! i = Some t → threads pool' !! i = Some t' →
               terminateCallWaits t None (turn (CallTerminate None) t) t').
Proof.
  intros Hmem. unfold poolMembers in Hmem. rewrite Forall_lookup in Hmem.
  assert (∀ i t, threads pool !! i = Some t → Inv t ∧ spawned t = SpawnReturned)
    as Hinv.
  { intros i t Hi. destruct (Hmem _ _ Hi) as [Hr Hs].
    split; [by apply reachable_Inv|done]. }
  split.
  - cbv zeta.
    set (pool' := poolRun es (poolTurn PoolSettled pool)).
    set (w := (λ t, length (aggregates t)) <$> threads pool).
    assert (settledCalls pool' !! length (settledCalls pool) = Some w) as Hw.
    { apply poolRun_settledCalls. simpl. by apply list_lookup_middle. }
    assert (length (threads pool') = length w) as Hlen.
    { unfold pool', w. by rewrite poolRun_length, poolTurn_length, length_fmap. }
    assert (poolSettledResolved pool' (length (settledCalls pool)) ↔
            ∀ i t t', threads pool !! i = Some t → threads pool' !! i = Some t' →
                      outcomeOf t' (length (aggregates t)) = Some Succeeded)
      as Hres.
    { unfold poolSettledResolved. split.
      - intros (w' & Hw' & Hall) i t t' Hi Hi'.
        rewrite Hw in Hw'. injection Hw' as <-.
        eapply (Forall2_lookup_lr _ _ _ i t' _ Hall); [done|].
        unfold w. by rewrite list_lookup_fmap, Hi.
      - intros Hall. exists w. split; [done|].
        apply Forall2_same_length_lookup_2; [done|].
        intros i t' j Hi' Hj. unfold w in Hj.
        rewrite list_lookup_fmap in Hj.
        destruct (threads pool !! i) as [t|] eqn:Hi; [|done].
        injection Hj as <-. by eapply Hall. }
    assert (∀ i t t', threads pool !! i = Some t → threads pool' !! i = Some t' →
              (outcomeOf t' (length (aggregates t)) = Some Succeeded ↔
               ∀ r, r ∈ promiseRef <$> taskValues t →
                    promises t' !! r ≠ Some Pending)) as Hmember.
    { intros i t t' Hi Hi'.
      destruct (pool_member_after PoolSettled pool es i t t') as (es_i & -> & _);
        [by left|done..|].
      destruct (Hinv _ _ Hi) as [Ht Hs].
      destruct (settled_call_spec t es_i Ht Hs) as (o & Ho & _ & Hiff).
      rewrite Ho. rewrite <- Hiff. split; [by intros [= ->]|by intros ->]. }
    split_and!; [done| |].
    + rewrite Hres. split; intros Hall i t t' Hi Hi'.
      * by apply (Hmember i t t'), (Hall i).
      * by apply (Hmember i t t'), (Hall i).
    + intros Hni Hresolved. apply Forall_lookup. intros i t' Hi'.
      destruct (threads pool !! i) as [t|] eqn:Hi.
      2:{ apply lookup_ge_None in Hi. apply lookup_lt_Some in Hi'.
          unfold pool' in Hi'.
          rewrite poolRun_length, poolTurn_length in Hi'. lia. }
      destruct (Hinv _ _ Hi) as [Ht Hs].
      pose proof (proj1 (Hmember i t t' Hi Hi')
                    (proj1 Hres Hresolved i t t' Hi Hi')) as Hall.
      destruct (pool_member_after PoolSettled pool es i t t')
        as (es_i & -> & Hni'); [by left|done..|].
      change (run es_i (turn CallSettled t)) with (run (CallSettled :: es_i) t)
        in *.
      apply drained_idle; [done| |done].
      constructor; [done|by apply Hni'].
  - cbv zeta. intros i t t' Hi Hi'.
    destruct (pool_member_after PoolTerminate pool es i t t')
      as (es_i & -> & _); [by right|done..|].
    destruct (Hinv _ _ Hi) as [Ht Hs]. by apply terminate_call_spec.
Qed.

Lemma unevenPool_members : poolMembers unevenPool.
Proof.
  repeat constructor.
  - exists DedicatedWorker, None, handshakingThread,
      [Deliver (MessageEvent (Init ["helloWorld"; "takesTime"]));
       Invoke "takesTime" [JsNumber 250] "uid-1";
       Deliver (MessageEvent (TaskResult "uid-1" (JsString "Hello World!")))].
    split; reflexivity.
  - exists DedicatedWorker, None, handshakingThread,
      [Deliver (MessageEvent (Init ["helloWorld"; "takesTime"]));
       Invoke "takesTime" [JsNumber 250] "uid-2"].
    split; reflexivity.
Defined.

Lemma pool_waits_member_by_member_witness :
  let es := [Member 1 (Deliver (MessageEvent
                         (TaskResult "uid-2" (JsString "Hello World!"))))] in
  Forall (λ t', numQueuedTasks t' = 0)
         (threads (poolRun es (poolTurn PoolSettled unevenPool))).
Proof.
  cbv zeta.
  destruct (pool_waits_member_by_member unevenPool
              [Member 1 (Deliver (MessageEvent
                           (TaskResult "uid-2" (JsString "Hello World!"))))]
              unevenPool_members) as ((_ & _ & Hidle) & _).
  apply Hidle.
  - repeat constructor.
  - eexists. split; [reflexivity|]. repeat constructor.
Defined.

(** The scenario of the test "Multiple workers" (pool.test.ts): two calls
    of [queue] on a pool of two leave one task on each member; once both
    results have arrived the promise of [pool.settled()] has resolved, no
    member has a pending task and both promises hold the result. *)
Example multiple_workers_scenario :
  let queued :=
    poolRun [Queue (invoking "takesTime" [JsNumber 250] "uid-1");
             Queue (invoking "takesTime" [JsNumber 250] "uid-2")]
            twoThreadPool in
  let drained :=
    poolRun [PoolSettled;
             Member 1 (Deliver (MessageEvent
                         (TaskResult "uid-2" (JsString "Hello World!"))));
             Member 0 (Deliver (MessageEvent
                         (TaskResult "uid-1" (JsString "Hello World!"))))]
            queued in
  numQueuedTasks <$> threads queued = [1; 1]
  ∧ poolSettledResolved drained 0
  ∧ numQueuedTasks <$> threads drained = [0; 0]
  ∧ promises <$> threads drained
    = [[Fulfilled (JsString "Hello World!")];
       [Fulfilled (JsString "Hello World!")]].
Proof.
  cbv zeta. split_and!; try reflexivity.
  eexists. split; [reflexivity|]. repeat constructor.
Qed.

(** * Further properties of the thread *)

(** ** Turns of a returned thread, turns of the others *)

Lemma turn_returned e t :
  Inv t → spawned t = SpawnReturned → ReturnedTurn t e (turn e t).
Proof.
  intros [HH HL] Hs. pose proof HL as [Hw HL']. rewrite Hs in HL'.
  destruct HL' as (Hm & Hl & Hc).
  destruct e as [evt| |name rawArgs uid| | |force|i].
  - rewrite turn_deliver_returned by done.
    destruct Hl as [Hl|Hl]; rewrite Hl.
    + rewrite decide_True by left. by apply returned_dispatch.
    + rewrite decide_False by apply not_elem_of_nil. apply returned_same.
  - unfold turn. destruct Hm as (names & Hh & Hp).
    assert (exec withTimeout_elapsed t = t) as ->.
    { unfold withTimeout_elapsed. js_unfold. by rewrite Hh. }
    rewrite initThread_resume_idle by (left; by rewrite Hs).
    apply returned_same.
  - unfold turn, whenReturned. rewrite Hs, invoke_exec.
    destruct (methods t !! name) as [[method]|] eqn:Hn.
    + by eapply returned_invoke.
    + apply returned_same.
  - unfold turn, whenReturned. rewrite Hs. apply returned_settled.
  - unfold turn, whenReturned. rewrite Hs. apply returned_resolved.
  - unfold turn, whenReturned. rewrite Hs. apply returned_terminate.
  - unfold turn, whenReturned. rewrite Hs.
    destruct (terminations t !! i) as [f|] eqn:Hi;
      [|rewrite terminate_resume_absent by done; apply returned_same].
    destruct (finished f) eqn:Hf;
      [erewrite terminate_resume_finished by done; apply returned_same|].
    destruct (TerminationInv_outcome t f HH) as [Ho|Ho];
      [by eapply list_elem_of_lookup_2| |].
    { erewrite terminate_resume_suspended by done. apply returned_same. }
    erewrite terminate_resume_runs by done. by apply returned_resume.
Qed.

(** While [Spawn] has not returned the thread, a turn touches the handshake
    only: either the thread is returned by it, untouched, or what was posted,
    pending, settled and reported stays as it is. *)
Lemma turn_unreturned e t :
  Inv t → spawned t ≠ SpawnReturned →
  posted (turn e t) = posted t ∧ errorEvents (turn e t) = errorEvents t
  ∧ sameHeap t (turn e t).
Proof.
  intros [HH HL] Hs. destruct (spawned t) eqn:Hsp; [|done|].
  - pose proof HL as [Hw HL']. rewrite Hsp in HL'.
    destruct HL' as (Hh & Hl & Hm & Hc).
    destruct e as [[data|]| | | | | |];
      try (unfold turn, whenReturned; rewrite Hsp;
           split_and!; [done..|apply sameHeap_refl]).
    + rewrite turn_handshake_message by done.
      destruct data; simpl handshakeVerdict;
        try (erewrite initThread_resume_rejected by done;
             rewrite closeChannel_exec by done; simpl;
             by destruct (worker t)).
      by rewrite (initThread_resume_resolved methodNames).
    + rewrite turn_handshake_plain by done.
      split_and!; [done..|apply sameHeap_refl].
    + rewrite turn_handshake_timeout by done.
      erewrite initThread_resume_rejected by done.
      rewrite closeChannel_exec by done. simpl. by destruct (worker t).
  - pose proof HL as [Hw HL']. rewrite Hsp in HL'.
    destruct HL' as (Hh & _ & _ & Hl).
    destruct e; unfold turn, whenReturned; rewrite ?Hsp;
      try (split_and!; [done..|apply sameHeap_refl]).
    + assert (dispatch evt t = t ∨ dispatch evt t = set_listeners (λ _, []) t)
        as Hd.
      { unfold dispatch. destruct Hl as [Hl|Hl]; rewrite Hl; simpl; [|by left].
        unfold initMessageHandler. js_unfold.
        destruct evt as [[]|]; simpl; rewrite ?Hh; simpl; auto;
          right; destruct t; simpl in *; by subst. }
      rewrite initThread_resume_idle.
      * unfold sameHeap. by destruct Hd as [-> | ->].
      * left. destruct Hd as [-> | ->]; simpl; by rewrite Hsp.
    + assert (exec withTimeout_elapsed t = t) as ->.
      { unfold withTimeout_elapsed. js_unfold. by rewrite Hh. }
      rewrite initThread_resume_idle by (left; by rewrite Hsp).
      split_and!; [done..|apply sameHeap_refl].
Qed.

Lemma untouched_Spawn w threadOptions t0 :
  Spawn w threadOptions = Normal t0 → untouched t0 ∧ spawned t0 = SpawnPending.
Proof.
  unfold Spawn, newEsThread. intros H.
  by destruct w; simplify_eq/=.
Qed.

Lemma untouched_turn e t :
  Inv t → spawned t ≠ SpawnReturned → untouched t → untouched (turn e t).
Proof.
  intros H Hs (U1 & U2 & U3 & U4 & U5 & U6 & U7).
  destruct (turn_unreturned e t H Hs) as (E1 & E2 & E3 & E4 & E5 & E6 & E7).
  unfold untouched. by rewrite E1, E2, E3, E4, E5, E6, E7.
Qed.

(** Before it is returned, a thread is untouched. *)
Lemma unreturned_untouched t :
  reachable t → spawned t ≠ SpawnReturned → untouched t.
Proof.
  intros (w & o & t0 & es & Hsp & ->).
  induction es as [|e es IH] using rev_ind.
  - intros _. by apply untouched_Spawn in Hsp as [? _].
  - rewrite run_app. simpl. intros Hs.
    assert (Inv (run es t0)) as Hinv by (eapply Inv_run, Inv_Spawn, Hsp).
    destruct (spawned (run es t0)) eqn:Hr.
    + apply untouched_turn; [done|by rewrite Hr|]. by apply IH.
    + rewrite spawned_stays_turn in Hs; [by rewrite Hr in Hs|done|].
      by rewrite Hr.
    + apply untouched_turn; [done|by rewrite Hr|]. by apply IH.
Qed.

Lemma just_returned e t :
  Inv t → spawned t = SpawnPending → spawned (turn e t) = SpawnReturned →
  listeners (turn e t) = [TaskResultDispatch].
Proof.
  intros Hinv Hs. pose proof Hinv as [HH HL]. pose proof HL as [Hw HL'].
  rewrite Hs in HL'. destruct HL' as (Hh & Hl & Hm & Hc).
  destruct e as [[data|]| | | | | |];
    try (unfold turn, whenReturned; rewrite Hs; by rewrite Hs).
  - destruct (handshakeVerdict data) as [|names|e] eqn:Hv;
      [by destruct data| |].
    + rewrite turn_handshake_message, Hv by done.
      rewrite (initThread_resume_resolved names) by done. done.
    + destruct (turn_handshake_rejected e data t Hinv Hs Hv) as (-> & _).
      done.
  - rewrite turn_handshake_plain by done. by rewrite Hs.
  - rewrite turn_handshake_timeout by done.
    erewrite initThread_resume_rejected by done.
    rewrite closeChannel_exec by done. by destruct (worker t).
Qed.

(** Induction over the life of a returned thread: from the moment [Spawn]
    returns it, untouched and listening, through the turns that follow. *)
Lemma returned_ind (P : EsThread → Prop) :
  (∀ t, reachable t → spawned t = SpawnReturned → untouched t →
        listeners t = [TaskResultDispatch] → channelClosed t = false → P t) →
  (∀ t e t', reachable t → spawned t = SpawnReturned → P t →
             ReturnedTurn t e t' → P t') →
  ∀ t, reachable t → spawned t = SpawnReturned → P t.
Proof.
  intros Hbase Hstep t (w & o & t0 & es & Hsp & ->).
  induction es as [|e es IH] using rev_ind.
  - apply untouched_Spawn in Hsp as [_ Hp]. simpl. by rewrite Hp.
  - rewrite run_app. simpl. intros Hs.
    assert (reachable (run es t0)) as Hr by (by exists w, o, t0, es).
    pose proof (reachable_Inv _ Hr) as Hinv.
    destruct (spawned (run es t0)) eqn:Hprev.
    + assert (untouched (turn e (run es t0))) as Hu.
      { apply untouched_turn; [done|by rewrite Hprev|].
        apply unreturned_untouched; [done|by rewrite Hprev]. }
      apply Hbase; [by apply reachable_turn|done..| |].
      * by apply just_returned.
      * destruct (Inv_turn e _ Hinv) as [_ [_ HL]]. rewrite Hs in HL.
        destruct HL as (_ & _ & Hc).
        destruct (channelClosed (turn e (run es t0))); [|done].
        destruct Hc as (i & f & Hi & _); [done|].
        destruct Hu as (_ & _ & _ & _ & _ & Ht & _). rewrite Ht in Hi.
        by rewrite lookup_nil in Hi.
    + eapply Hstep; [exact Hr|done|by apply IH|by apply turn_returned].
    + rewrite spawned_stays_turn in Hs; [by rewrite Hprev in Hs|done|].
      by rewrite Hprev.
Qed.

(** ** What the operations leave alone *)

(** What no operation of a returned thread writes. *)
Lemma terminateTail_frame {A} (proj : EsThread → A) i f t :
  worker t ≠ ServiceWorker →
  (∀ g t', proj (set_terminations g t') = proj t') →
  (∀ g t', proj (set_posted g t') = proj t') →
  (∀ g t', proj (set_listeners g t') = proj t') →
  (∀ b t', proj (set_workerTerminated b t') = proj t') →
  (∀ b t', proj (set_portClosed b t') = proj t') →
  proj (terminateTail i f t) = proj t.
Proof.
  intros Hw H1 H2 H3 H4 H5. unfold terminateTail.
  rewrite closeChannel_exec by done. simpl.
  destruct (worker t); by rewrite ?H4, ?H5, H3, H2, H1.
Qed.

Lemma ReturnedTurn_frame {A} (proj : EsThread → A) t e t' :
  worker t ≠ ServiceWorker →
  (∀ ps log aggs x, proj (set_heap ps log aggs x) = proj x) →
  (∀ g x, proj (set_tasks g x) = proj x) →
  (∀ g x, proj (set_errorEvents g x) = proj x) →
  (∀ g x, proj (set_posted g x) = proj x) →
  (∀ g x, proj (set_listeners g x) = proj x) →
  (∀ g x, proj (set_terminations g x) = proj x) →
  (∀ b x, proj (set_workerTerminated b x) = proj x) →
  (∀ b x, proj (set_portClosed b x) = proj x) →
  ReturnedTurn t e t' → proj t' = proj t.
Proof.
  intros Hw H1 H2 H3 H4 H5 H6 H7 H8 Ht.
  destruct Ht as [| | | | | |i f Hi Hf Ho].
  - done.
  - by apply taskResultDispatch_frame.
  - by rewrite callProxy_exec, H4, H2, H1.
  - unfold promiseCombinator, exec. simpl. apply H1.
  - unfold promiseCombinator, exec. simpl. apply H1.
  - rewrite terminate_exec, H6. unfold promiseCombinator, exec. simpl. apply H1.
  - by apply terminateTail_frame.
Qed.

Lemma methods_stay es t :
  Inv t → spawned t = SpawnReturned → methods (run es t) = methods t.
Proof.
  revert t. induction es as [|e es IH]; intros t Hinv Hs; [done|].
  simpl. change (foldl _ (turn e t) es) with (run es (turn e t)).
  rewrite IH.
  - eapply (ReturnedTurn_frame methods); [apply Hinv|done..|].
    by apply turn_returned.
  - by apply Inv_turn.
  - rewrite spawned_stays_turn; [done..|by rewrite Hs].
Qed.

Lemma installProxies_ext names names' ms :
  (∀ n, n ∈ names ↔ n ∈ names') →
  installProxies names ms = installProxies names' ms.
Proof.
  intros H. apply map_eq. intros name. rewrite !installProxies_lookup.
  destruct (decide (name ∈ names)) as [Hn|Hn].
  - by rewrite decide_True by by apply H.
  - by rewrite decide_False by (intros ?; by apply Hn, H).
Qed.

Lemma turn_Init names t :
  LifeInv t → spawned t = SpawnPending →
  turn (Deliver (MessageEvent (Init names))) t
  = set_spawned SpawnReturned
      (set_listeners (λ _, [TaskResultDispatch])
         (set_methods (λ _, installProxies names ∅)
            (set_handshake (HandshakeResolved names) t))).
Proof.
  intros HL Hs. rewrite turn_handshake_message by done. simpl handshakeVerdict.
  rewrite (initThread_resume_resolved names) by done.
  destruct HL as [_ HL]. rewrite Hs in HL. destruct HL as (_ & _ & Hm & _).
  destruct t; simpl in *. by subst.
Qed.

(** X1.  The proxies installed when Init arrives are those of the announced
    names: they depend on which names the worker announced, not on their
    order or on repetitions; [methods] never changes afterwards, whatever
    the thread goes through; and calling a name that was not announced
    leaves the thread as it is. *)
Theorem methods_fixed_by_Init (t : EsThread) (names : list string) :
  reachable t → spawned t = SpawnPending →
  let t' := turn (Deliver (MessageEvent (Init names))) t in
  (∀ name, methods t' !! name
           = if decide (name ∈ names) then Some (createProxyFunction name)
             else None)
  ∧ (∀ names', (∀ n, n ∈ names ↔ n ∈ names') →
       methods (turn (Deliver (MessageEvent (Init names'))) t) = methods t')
  ∧ (∀ es, methods (run es t') = methods t')
  ∧ (∀ es name rawArgs uid, name ∉ names →
       turn (Invoke name rawArgs uid) (run es t') = run es t').
Proof.
  intros Hr Hs t'. pose proof (reachable_Inv _ Hr) as Hinv.
  assert (Inv t') as Hinv' by by apply Inv_turn.
  assert (methods t' = installProxies names ∅) as Hm.
  { unfold t'. by rewrite turn_Init by (done || apply Hinv). }
  assert (spawned t' = SpawnReturned) as Hs'.
  { unfold t'. by rewrite turn_Init by (done || apply Hinv). }
  split_and!.
  - intros name. by rewrite Hm, installProxies_lookup, lookup_empty.
  - intros names' Hn. rewrite Hm, turn_Init by (done || apply Hinv). simpl.
    symmetry. by apply installProxies_ext.
  - intros es. by apply methods_stay.
  - intros es name rawArgs uid Hn. unfold turn, whenReturned.
    rewrite spawned_stays, Hs' by (done || by rewrite Hs').
    rewrite invoke_exec, methods_stay, Hm, installProxies_lookup by done.
    by rewrite decide_False, lookup_empty by done.
Qed.

Lemma methods_fixed_by_Init_witness :
  let t' := turn (Deliver (MessageEvent (Init ["helloWorld"; "takesTime"])))
                 handshakingThread in
  (∀ name, methods t' !! name
           = if decide (name ∈ ["helloWorld"; "takesTime"])
             then Some (createProxyFunction name) else None)
  ∧ (∀ names', (∀ n, n ∈ ["helloWorld"; "takesTime"] ↔ n ∈ names') →
       methods (turn (Deliver (MessageEvent (Init names'))) handshakingThread)
       = methods t')
  ∧ (∀ es, methods (run es t') = methods t')
  ∧ (∀ es name rawArgs uid, name ∉ ["helloWorld"; "takesTime"] →
       turn (Invoke name rawArgs uid) (run es t') = run es t').
Proof.
  apply (methods_fixed_by_Init handshakingThread ["helloWorld"; "takesTime"]).
  - exists DedicatedWorker, None, handshakingThread, [].
    split; [apply handshakingThread_spawn|reflexivity].
  - reflexivity.
Defined.








Lemma transferList_nil xs :
  transferList xs = [] ↔ ∀ send ts, JsTransferDescriptor send ts ∈ xs → ts = [].
Proof.
  unfold transferList. induction xs as [|x xs IH].
  - split; [by intros _ ?? ?%elem_of_nil|done].
  - rewrite filter_cons. destruct (isTransferDescriptor x) eqn:E.
    + rewrite decide_True by done. rewrite fmap_cons. simpl.
      destruct x as [| | | |send ts]; try done. simpl. split.
      * intros [-> Hr]%app_eq_nil send' ts' [[= _ ->]|Hin]%elem_of_cons;
          [done|]. by eapply IH.
      * intros H. rewrite (H send ts) by left. simpl. apply IH.
        intros send' ts' Hin. apply (H send'). by right.
    + rewrite decide_False by congruence. rewrite IH. split.
      * intros H send ts [Heq|Hin]%elem_of_cons; [by subst x|by eapply H].
      * intros H send ts Hin. apply (H send). by right.
Qed.

(** X3.  [prepareArguments] works argument by argument: the result for a
    concatenation is the concatenation of the results, no argument is dropped
    or added, the transfer list is empty exactly when every descriptor among
    the arguments has an empty one, and the payload of a descriptor is not
    looked into (a descriptor wrapped in a descriptor contributes nothing). *)
Theorem prepareArguments_app (xs ys : list JsValue) :
  prepareArguments (xs ++ ys)
  = ((prepareArguments xs).1 ++ (prepareArguments ys).1,
     (prepareArguments xs).2 ++ (prepareArguments ys).2)
  ∧ length (prepareArguments xs).1 = length xs
  ∧ ((prepareArguments xs).2 = [] ↔
     ∀ send ts, JsTransferDescriptor send ts ∈ xs → ts = [])
  ∧ ∀ send ts ts',
      (prepareArguments
         [JsTransferDescriptor (JsTransferDescriptor send ts') ts]).2
      = ts.
Proof.
  rewrite !prepareArguments_spec. simpl. split_and!.
  - unfold transferList. by rewrite filter_app, fmap_app, join_app.
  - done.
  - apply transferList_nil.
  - done.
Qed.

(** ** The operations of a returned thread, written out *)

Lemma taskResultDispatch_cases evt t :
  HeapInv t →
  (∃ e, faultOf t evt = Some e
        ∧ exec (taskResultDispatch evt) t = set_errorEvents (λ log, log ++ [e]) t)
  ∨ (∃ data uid s task,
       evt = MessageEvent data ∧ settlementOf data = Some (uid, s)
       ∧ tasks t !! uid = Some task
       ∧ promises t !! promiseRef task = Some Pending
       ∧ exec (taskResultDispatch evt) t
         = set_heap (<[promiseRef task := settledState s]> (promises t))
             (settlements t ++ [(promiseRef task, s)])
             (react (promiseRef task) s <$> aggregates t)
             (set_tasks (delete uid) t)).
Proof.
  intros HH. destruct (faultOf t evt) as [e|] eqn:Hf.
  - left. exists e. split; [done|]. by apply taskResultDispatch_fault.
  - right. apply faultOf_None in Hf as (data & uid & s & task & -> & Hs & Ht).
    exists data, uid, s, task. pose proof (inv_pending t HH _ _ Ht) as Hp.
    split_and!; [done..|].
    rewrite (taskResultDispatch_settles data uid s task) by done.
    rewrite (inv_key t HH _ _ Ht).
    change (exec (tasks_delete uid) t) with (set_tasks (delete uid) t).
    by rewrite settle_exec.
Qed.

Lemma terminateTail_exec i f t :
  worker t ≠ ServiceWorker →
  terminateTail i f t
  = (match worker t with
     | DedicatedWorker => set_workerTerminated true
     | _ => set_portClosed true
     end)
      (set_listeners (filter (λ l, l ≠ TaskResultDispatch))
         (set_posted (λ log, log ++ [(Terminate (forceTerminateShared f), [])])
            (set_terminations (alter finish i) t))).
Proof.
  intros Hw. unfold terminateTail. rewrite closeChannel_exec; [|exact Hw].
  simpl. by destruct (worker t).
Qed.

Lemma proxy_named t name method :
  LifeInv t → spawned t = SpawnReturned →
  methods t !! name = Some (Proxy method) → method = name.
Proof.
  intros [_ HL] Hs. rewrite Hs in HL. destruct HL as ((names & _ & Hp) & _).
  rewrite Hp. unfold createProxyFunction. case_decide; congruence.
Qed.

Ltac returned_cases Ht HH Hw :=
  destruct Ht as [e_|evt_ Hl_|name_ method_ rawArgs_ uid_ Hm_| | |force_
                 |i_ f_ Hi_ Hf_ Ho_];
  [ | destruct (taskResultDispatch_cases evt_ _ HH)
        as [(err_ & Hfault_ & ->)
           |(data_ & uid_ & s_ & task_ & -> & Hso_ & Htk_ & Hpe_ & ->)]
    | rewrite callProxy_exec
    | unfold promiseCombinator, exec; cbn [snd]
    | unfold promiseCombinator, exec; cbn [snd]
    | rewrite terminate_exec; unfold promiseCombinator, exec; cbn [snd]
    | rewrite (terminateTail_exec _ _ _ Hw) ].

(** ** Counting the calls *)







(** ** What was posted *)



(** ** Once terminated *)

Lemma finishedCalls_finish i f fs :
  fs !! i = Some f → finished f = false →
  length (filter (λ f, finished f = true) (alter finish i fs))
  = S (length (filter (λ f, finished f = true) fs)).
Proof.
  revert i. induction fs as [|g fs IH]; intros [|i] Hi Hf; simplify_eq/=.
  - rewrite !filter_cons. simpl. by rewrite Hf.
  - rewrite !filter_cons. destruct (decide (finished g = true)); simpl;
      by rewrite IH.
Qed.

Lemma finishedCalls_someFinished t : finishedCalls t ≠ 0 ↔ someFinished t.
Proof.
  unfold finishedCalls, someFinished. split.
  - intros H. destruct (filter _ (terminations t)) as [|f fs] eqn:E; [done|].
    assert (f ∈ filter (λ f, finished f = true) (terminations t)) as Hin
      by (rewrite E; left).
    apply list_elem_of_filter in Hin as [Hf [i Hi]%list_elem_of_lookup].
    by exists i, f.
  - intros (i & f & Hi & Hf) H%length_zero_iff_nil.
    assert (f ∈ filter (λ f, finished f = true) (terminations t)) as Hin.
    { apply list_elem_of_filter. split; [done|]. by eapply list_elem_of_lookup_2. }
    rewrite H in Hin. by apply elem_of_nil in Hin.
Qed.

Lemma closedWhenFinished_step t e t' :
  Inv t → closedWhenFinished t → ReturnedTurn t e t' → closedWhenFinished t'.
Proof.
  intros [HH [Hw HL]] [H1 H2] Ht.
  unfold closedWhenFinished, terminatesPosted, finishedCalls, channelClosed in *.
  returned_cases Ht HH Hw; simpl; try done.
  - rewrite filter_app, length_app. simpl. by rewrite Nat.add_0_r.
  - rewrite filter_app, length_app. simpl. by rewrite Nat.add_0_r.
  - assert (filter (λ l, l ≠ TaskResultDispatch) (listeners t) = []) as Hfl.
    { destruct (workerTerminated t || portClosed t);
        destruct H2 as [-> _]; done. }
    destruct (worker t); simpl; [|rewrite orb_true_r|done].
    all: rewrite filter_app, length_app, (finishedCalls_finish i_ f_) by done.
    all: simpl; split; [lia|done].
Qed.

Lemma reachable_closedWhenFinished t :
  reachable t → spawned t = SpawnReturned → closedWhenFinished t.
Proof.
  revert t. apply returned_ind.
  - intros t _ _ (U1 & _ & _ & _ & _ & U6 & _) Hl Hc.
    unfold closedWhenFinished, terminatesPosted, finishedCalls.
    by rewrite Hc, U1, U6.
  - intros t e t' Hr _ Hc Ht. eapply closedWhenFinished_step; [|done..].
    by apply reachable_Inv.
Qed.

(** A thread without listener hears nothing. *)
Lemma deaf_turn e t :
  Inv t → spawned t = SpawnReturned → listeners t = [] →
  listeners (turn e t) = []
  ∧ settlements (turn e t) = settlements t
  ∧ errorEvents (turn e t) = errorEvents t
  ∧ (∀ r st, promises t !! r = Some st → promises (turn e t) !! r = Some st)
  ∧ (∀ evt, e = Deliver evt → turn e t = t).
Proof.
  intros Hinv Hs Hl. pose proof (turn_returned e t Hinv Hs) as Ht.
  destruct Hinv as [HH [Hw HL]].
  destruct Ht as [e|evt Hl'|name method rawArgs uid Hm| | |force|i f Hi Hf Ho].
  - done.
  - by rewrite Hl in Hl'.
  - rewrite callProxy_exec. simpl. split_and!; [done..| |done].
    intros r st Hr. rewrite lookup_app_l; [done|]. by eapply lookup_lt_Some.
  - done.
  - done.
  - by rewrite terminate_exec.
  - rewrite (terminateTail_exec _ _ _ Hw).
    destruct (worker t); simpl; by rewrite Hl.
Qed.

Lemma deaf_run es t :
  Inv t → spawned t = SpawnReturned → listeners t = [] →
  listeners (run es t) = []
  ∧ settlements (run es t) = settlements t
  ∧ errorEvents (run es t) = errorEvents t
  ∧ (∀ r st, promises t !! r = Some st → promises (run es t) !! r = Some st).
Proof.
  revert t. induction es as [|e es IH]; intros t Hinv Hs Hl; [done|].
  simpl. change (foldl _ (turn e t) es) with (run es (turn e t)).
  destruct (deaf_turn e t Hinv Hs Hl) as (D1 & D2 & D3 & D4 & _).
  destruct (IH (turn e t)) as (I1 & I2 & I3 & I4);
    [by apply Inv_turn|by rewrite spawned_stays_turn by (done || by rewrite Hs)
    |done|].
  split_and!; [done|congruence|congruence|]. intros r st Hr. by apply I4, D4.
Qed.

(** X5.  On a returned thread the channel is closed exactly when the result
    listener is gone, and exactly when some call of [terminate] got past its
    [await].  From then on the channel stays closed, an event of the channel
    changes nothing, no promise is settled, no error event is reported, and
    what is pending stays pending. *)
Theorem terminated_for_good (t : EsThread) :
  reachable t → spawned t = SpawnReturned →
  (channelClosed t = true ↔ listeners t = [])
  ∧ (channelClosed t = true ↔ someFinished t)
  ∧ (channelClosed t = true →
     ∀ es, let t' := run es t in
       channelClosed t' = true
       ∧ (∀ evt, turn (Deliver evt) t' = t')
       ∧ settlements t' = settlements t
       ∧ errorEvents t' = errorEvents t
       ∧ ∀ r, promises t !! r = Some Pending → promises t' !! r = Some Pending).
Proof.
  intros Hr Hs. destruct (reachable_closedWhenFinished t Hr Hs) as [H1 H2].
  pose proof (finishedCalls_someFinished t) as Hsf.
  assert (channelClosed t = true ↔ listeners t = []) as Hcl.
  { destruct (channelClosed t); destruct H2 as [-> ?]; by split. }
  split_and!; [done| |].
  - etrans; [|exact Hsf].
    destruct (channelClosed t); destruct H2 as [? Hn]; by split.
  - intros Hc es t'. apply Hcl in Hc.
    pose proof (reachable_Inv _ Hr) as Hinv.
    destruct (deaf_run es t Hinv Hs Hc) as (D1 & D2 & D3 & D4).
    assert (reachable t') as Hr' by by apply reachable_run.
    assert (spawned t' = SpawnReturned) as Hs'.
    { unfold t'. rewrite spawned_stays; [done..|by rewrite Hs]. }
    split_and!; [|intros evt|done|done|by intros r; apply D4].
    + destruct (reachable_closedWhenFinished t' Hr' Hs') as [_ H2'].
      fold t' in D1. destruct (channelClosed t'); [done|].
      destruct H2' as [H2' _]. by rewrite D1 in H2'.
    + destruct (deaf_turn (Deliver evt) t' (reachable_Inv _ Hr') Hs' D1)
        as (_ & _ & _ & _ & Hd).
      by apply (Hd evt).
Qed.

Lemma terminated_for_good_witness :
  let t := run [CallTerminate None; Resume 0] readyThread in
  channelClosed t = true
  ∧ ((channelClosed t = true ↔ listeners t = [])
     ∧ (channelClosed t = true ↔ someFinished t)
     ∧ (channelClosed t = true →
        ∀ es, let t' := run es t in
          channelClosed t' = true
          ∧ (∀ evt, turn (Deliver evt) t' = t')
          ∧ settlements t' = settlements t
          ∧ errorEvents t' = errorEvents t
          ∧ ∀ r, promises t !! r = Some Pending →
                 promises t' !! r = Some Pending)).
Proof.
  cbv zeta. split; [reflexivity|].
  apply (terminated_for_good (run [CallTerminate None; Resume 0] readyThread)).
  - apply reachable_run, readyThread_reachable.
  - reflexivity.
Defined.

(** ** One Terminate message for each call that got past its await *)

Lemma resume_twice i t :
  Inv t → turn (Resume i) (turn (Resume i) t) = turn (Resume i) t.
Proof.
  intros [HH [Hw HL]].
  destruct (spawned t) eqn:Hs;
    try (unfold turn, whenReturned; rewrite Hs; by rewrite Hs).
  rewrite (turn_resume_returned i t) by done.
  destruct (terminations t !! i) as [f|] eqn:Hi.
  2:{ rewrite terminate_resume_absent by done.
      rewrite turn_resume_returned by done.
      by rewrite terminate_resume_absent. }
  destruct (finished f) eqn:Hf.
  { erewrite terminate_resume_finished by done.
    rewrite turn_resume_returned by done.
    by erewrite terminate_resume_finished. }
  destruct (TerminationInv_outcome t f HH) as [Ho|Ho];
    [by eapply list_elem_of_lookup_2| |].
  - erewrite terminate_resume_suspended by done.
    rewrite turn_resume_returned by done.
    by erewrite terminate_resume_suspended.
  - erewrite terminate_resume_runs by done.
    rewrite turn_resume_returned.
    + apply (terminate_resume_finished i (finish f)); [|done].
      rewrite (terminateTail_exec _ _ _ Hw).
      assert (alter finish i (terminations t) !! i = Some (finish f)) as Ha.
      { by rewrite list_lookup_alter, decide_True, Hi by done. }
      by destruct (worker t).
    + rewrite (terminateTail_exec _ _ _ Hw). by destruct (worker t).
Qed.

(** X6.  The statements of [terminate] after its [await] run once for each
    call: the Terminate messages posted are as many as the calls past their
    [await], resuming a call a second time changes nothing, and resuming a
    call that is past its [await] posts nothing, whatever happened in
    between. *)
Theorem terminate_tail_runs_once (t : EsThread) :
  reachable t →
  terminatesPosted t = finishedCalls t
  ∧ (∀ i, turn (Resume i) (turn (Resume i) t) = turn (Resume i) t)
  ∧ (∀ i f, terminations t !! i = Some f → finished f = true →
       ∀ es, posted (run (es ++ [Resume i]) t) = posted (run es t)).
Proof.
  intros Hr. pose proof (reachable_Inv _ Hr) as Hinv. split_and!.
  - destruct (spawned t) eqn:Hs.
    2:{ by apply reachable_closedWhenFinished. }
    all: destruct (unreturned_untouched t Hr) as (U1 & _ & _ & _ & _ & U6 & _);
      [by rewrite Hs|].
    all: unfold terminatesPosted, finishedCalls; by rewrite U1, U6.
  - intros i. by apply resume_twice.
  - intros i f Hi Hf es. rewrite run_app. simpl.
    destruct (grows_terms _ _ (Grows_run es t Hinv) i f Hi)
      as (f' & Hi' & _ & _ & Hf').
    unfold turn, whenReturned. destruct (spawned (run es t)); [done| |done].
    erewrite terminate_resume_finished; [done..|by apply Hf'].
Qed.

Lemma terminate_tail_runs_once_witness :
  let t := run [CallTerminate None; Resume 0] readyThread in
  terminatesPosted t = 1
  ∧ (terminatesPosted t = finishedCalls t
     ∧ (∀ i, turn (Resume i) (turn (Resume i) t) = turn (Resume i) t)
     ∧ (∀ i f, terminations t !! i = Some f → finished f = true →
          ∀ es, posted (run (es ++ [Resume i]) t) = posted (run es t))).
Proof.
  cbv zeta. split; [reflexivity|].
  apply (terminate_tail_runs_once
           (run [CallTerminate None; Resume 0] readyThread)).
  apply reachable_run, readyThread_reachable.
Defined.



(** ** A task waits for its own answer *)

Lemma pending_turn uid task e t :
  Inv t → tasks t !! uid = Some task → ¬ concerns uid e →
  tasks (turn e t) !! uid = Some task.
Proof.
  intros Hinv Hu Hc. destruct (spawned t) eqn:Hs.
  2:{ pose proof (turn_returned e t Hinv Hs) as Ht.
      destruct Hinv as [HH [Hw HL]].
      returned_cases Ht HH Hw; simpl; try done.
      - rewrite lookup_delete_ne; [done|]. intros ->. apply Hc.
        by destruct data_; simplify_eq/=.
      - rewrite lookup_insert_ne; [done|]. intros ->. by apply Hc.
      - by destruct (worker t). }
  all: destruct (turn_unreturned e t Hinv) as (_ & _ & E1 & _);
    [by rewrite Hs|by rewrite E1].
Qed.

(** X8.  A pending task stays in the mapping and its promise stays pending
    through every sequence of turns that holds neither a Result or an Error
    for its UID nor a call given its UID: nothing but its own answer settles
    a call, the timer of the handshake and the other messages included. *)
Theorem pending_until_answered (t : EsThread) (uid : TaskUID)
    (task : EsTaskPromise) (es : list Turn) :
  reachable t → tasks t !! uid = Some task →
  Forall (λ e, ¬ concerns uid e) es →
  tasks (run es t) !! uid = Some task
  ∧ promises (run es t) !! promiseRef task = Some Pending
  ∧ 0 < numQueuedTasks (run es t).
Proof.
  intros Hr Hu Hes.
  assert (tasks (run es t) !! uid = Some task) as Hu'.
  { apply reachable_Inv in Hr. revert t Hr Hu.
    induction Hes as [|e es He Hes IH]; intros t Hinv Hu; [done|].
    simpl. change (foldl _ (turn e t) es) with (run es (turn e t)).
    apply IH; [by apply Inv_turn|by apply pending_turn]. }
  pose proof (reachable_Inv _ (reachable_run es t Hr)) as [HH _].
  split_and!; [done|by apply (inv_pending _ HH uid)|].
  unfold numQueuedTasks.
  destruct (size (tasks (run es t))) eqn:E; [|lia].
  apply map_size_empty_inv in E. by rewrite E in Hu'.
Qed.

Lemma pending_until_answered_witness :
  let es := [Deliver (MessageEvent (TaskResult "uid-9" JsUndefined));
             Deliver PlainEvent; TimerFired; CallSettled;
             Invoke "helloWorld" [] "uid-2";
             Deliver (MessageEvent (UnchaughtError "boom"))] in
  tasks (run es busyThread) !! "uid-1"
  = Some {| taskUID := "uid-1"; promiseRef := 0 |}
  ∧ promises (run es busyThread) !! 0 = Some Pending
  ∧ 0 < numQueuedTasks (run es busyThread).
Proof.
  apply (pending_until_answered busyThread "uid-1"
           {| taskUID := "uid-1"; promiseRef := 0 |}).
  - apply busyThread_reachable.
  - reflexivity.
  - repeat constructor; simpl; by intros ?.
Defined.

(** ** Answers in either order *)

Lemma listening t :
  reachable t → spawned t = SpawnReturned → channelClosed t = false →
  listeners t = [TaskResultDispatch].
Proof.
  intros Hr Hs Hc. destruct (reachable_closedWhenFinished t Hr Hs) as [_ H].
  rewrite Hc in H. apply H.
Qed.

Lemma has_task_returned t uid task :
  reachable t → tasks t !! uid = Some task → spawned t = SpawnReturned.
Proof.
  intros Hr Hu. destruct (spawned t) eqn:Hs; [|done|].
  all: destruct (unreturned_untouched t Hr) as (_ & U2 & _); [by rewrite Hs|].
  all: by rewrite U2 in Hu.
Qed.

Lemma turn_answer data uid s task t :
  Inv t → spawned t = SpawnReturned → listeners t = [TaskResultDispatch] →
  settlementOf data = Some (uid, s) → tasks t !! uid = Some task →
  turn (Deliver (MessageEvent data)) t
  = set_heap (<[promiseRef task := settledState s]> (promises t))
      (settlements t ++ [(promiseRef task, s)])
      (react (promiseRef task) s <$> aggregates t)
      (set_tasks (delete uid) t).
Proof.
  intros [HH HL] Hs Hl Hd Hu. rewrite turn_deliver_returned by done.
  rewrite Hl, decide_True by left.
  destruct (taskResultDispatch_cases (MessageEvent data) t HH)
    as [(e & Hf & _)|(data' & uid' & s' & task' & E & Hd' & Hu' & _ & ->)].
  - destruct data; simplify_eq/=; by rewrite Hu in Hf.
  - by simplify_eq.
Qed.

(** X9.  The answers for two pending tasks may come in either order: the
    mapping, the promises, what was posted and the error events end up the
    same, with both tasks out of the count and no error reported. *)
Theorem answers_commute (t : EsThread) (d1 d2 : WorkerMessage)
    (uid1 uid2 : TaskUID) (s1 s2 : Settlement) :
  reachable t → channelClosed t = false →
  settlementOf d1 = Some (uid1, s1) → settlementOf d2 = Some (uid2, s2) →
  uid1 ≠ uid2 → is_Some (tasks t !! uid1) → is_Some (tasks t !! uid2) →
  let a := run [Deliver (MessageEvent d1); Deliver (MessageEvent d2)] t in
  let b := run [Deliver (MessageEvent d2); Deliver (MessageEvent d1)] t in
  tasks a = tasks b ∧ promises a = promises b
  ∧ numQueuedTasks a + 2 = numQueuedTasks t
  ∧ posted a = posted b ∧ errorEvents a = errorEvents b
  ∧ errorEvents a = errorEvents t.
Proof.
  intros Hr Hc Hd1 Hd2 Hne [k1 Hu1] [k2 Hu2] a b.
  pose proof (has_task_returned _ _ _ Hr Hu1) as Hs.
  pose proof (listening t Hr Hs Hc) as Hl.
  pose proof (reachable_Inv _ Hr) as Hinv. pose proof Hinv as [HH _].
  assert (promiseRef k1 ≠ promiseRef k2) as Hrne.
  { intros E. by apply Hne, (inv_inj t HH uid1 uid2 k1 k2). }
  pose proof (turn_answer d1 uid1 s1 k1 t Hinv Hs Hl Hd1 Hu1) as E1.
  pose proof (turn_answer d2 uid2 s2 k2 t Hinv Hs Hl Hd2 Hu2) as E2.
  assert (a = turn (Deliver (MessageEvent d2)) (turn (Deliver (MessageEvent d1)) t))
    as -> by done.
  assert (b = turn (Deliver (MessageEvent d1)) (turn (Deliver (MessageEvent d2)) t))
    as -> by done.
  rewrite (turn_answer d2 uid2 s2 k2 (turn (Deliver (MessageEvent d1)) t));
    [|by apply Inv_turn|by rewrite E1..|done|].
  2:{ rewrite E1. simpl. by rewrite lookup_delete_ne. }
  rewrite (turn_answer d1 uid1 s1 k1 (turn (Deliver (MessageEvent d2)) t));
    [|by apply Inv_turn|by rewrite E2..|done|].
  2:{ rewrite E2. simpl. by rewrite lookup_delete_ne. }
  rewrite E1, E2. simpl. split_and!; try done.
  - apply delete_delete.
  - by apply list_insert_insert_ne.
  - unfold numQueuedTasks. simpl.
    rewrite !map_size_delete, lookup_delete_ne, Hu1, Hu2 by done. simpl.
    assert (2 ≤ size (tasks t)); [|lia].
    assert (size (delete uid1 (tasks t)) ≠ 0) as Hn.
    { intros H0%map_size_empty_inv.
      assert (delete uid1 (tasks t) !! uid2 = Some k2) as Hx
        by by rewrite lookup_delete_ne.
      by rewrite H0 in Hx. }
    rewrite map_size_delete, Hu1 in Hn. lia.
Qed.

Lemma answers_commute_witness :
  let t := turn (Invoke "helloWorld" [] "uid-2") busyThread in
  let d1 := TaskResult "uid-1" (JsNumber 1) in
  let d2 := TaskError "uid-2" "boom" in
  let a := run [Deliver (MessageEvent d1); Deliver (MessageEvent d2)] t in
  let b := run [Deliver (MessageEvent d2); Deliver (MessageEvent d1)] t in
  tasks a = tasks b ∧ promises a = promises b
  ∧ numQueuedTasks a + 2 = numQueuedTasks t
  ∧ posted a = posted b ∧ errorEvents a = errorEvents b
  ∧ errorEvents a = errorEvents t.
Proof.
  apply (answers_commute (turn (Invoke "helloWorld" [] "uid-2") busyThread)
           (TaskResult "uid-1" (JsNumber 1)) (TaskError "uid-2" "boom")
           "uid-1" "uid-2" (Resolve (JsNumber 1)) (Reject (Error "boom"))).
  - apply reachable_turn, busyThread_reachable.
  - reflexivity.
  - reflexivity.
  - reflexivity.
  - intros H. by inversion H.
  - by eexists.
  - by eexists.
Defined.

(** ** A call and its answer *)

Lemma turn_call name p rawArgs uid t :
  LifeInv t → spawned t = SpawnReturned → methods t !! name = Some p →
  turn (Invoke name rawArgs uid) t
  = set_posted (λ log, log ++ [(Run uid name rawArgs, transferList rawArgs)])
      (set_tasks (insert uid {| taskUID := uid;
                                promiseRef := length (promises t) |})
         (set_heap (promises t ++ [Pending]) (settlements t) (aggregates t) t)).
Proof.
  intros HL Hs Hm. unfold turn, whenReturned. rewrite Hs, invoke_exec, Hm.
  destruct p as [method].
  assert (method = name) as -> by by eapply proxy_named.
  apply callProxy_exec.
Qed.

(** X10.  A proxy call with a fresh UID followed by the answer for that UID
    leaves the mapping as it was, adds one promise, settled as the answer
    says, one settlement and one Run message, and reports no error. *)
Theorem call_and_answer (t : EsThread) (name : string)
    (rawArgs : list JsValue) (uid : TaskUID) (data : WorkerMessage)
    (s : Settlement) :
  reachable t → spawned t = SpawnReturned → channelClosed t = false →
  is_Some (methods t !! name) → tasks t !! uid = None →
  settlementOf data = Some (uid, s) →
  let t' := run [Invoke name rawArgs uid; Deliver (MessageEvent data)] t in
  tasks t' = tasks t
  ∧ promises t' = promises t ++ [settledState s]
  ∧ settlements t' = settlements t ++ [(length (promises t), s)]
  ∧ posted t' = posted t ++ [(Run uid name rawArgs, transferList rawArgs)]
  ∧ errorEvents t' = errorEvents t
  ∧ listeners t' = listeners t.
Proof.
  intros Hr Hs Hc [p Hm] Hu Hd t'.
  pose proof (reachable_Inv _ Hr) as Hinv. pose proof Hinv as [HH HL].
  pose proof (listening t Hr Hs Hc) as Hl.
  pose proof (turn_call name p rawArgs uid t HL Hs Hm) as E1.
  assert (t' = turn (Deliver (MessageEvent data))
                 (turn (Invoke name rawArgs uid) t)) as -> by done.
  rewrite (turn_answer data uid s
             {| taskUID := uid; promiseRef := length (promises t) |});
    [|by apply Inv_turn|by rewrite E1..|done|].
  2:{ rewrite E1. simpl. by rewrite lookup_insert_eq. }
  rewrite E1. simpl. split_and!; try done.
  - rewrite delete_insert_eq. by apply delete_id.
  - rewrite insert_app_r_alt by done. by rewrite Nat.sub_diag.
Qed.

Lemma call_and_answer_witness :
  let t' := run [Invoke "helloWorld" [] "uid-2";
                 Deliver (MessageEvent
                            (TaskResult "uid-2" (JsString "Hello World!")))]
                busyThread in
  tasks t' = tasks busyThread
  ∧ promises t'
    = promises busyThread
      ++ [settledState (Resolve (JsString "Hello World!"))]
  ∧ settlements t'
    = settlements busyThread
      ++ [(length (promises busyThread), Resolve (JsString "Hello World!"))]
  ∧ posted t'
    = posted busyThread ++ [(Run "uid-2" "helloWorld" [], transferList [])]
  ∧ errorEvents t' = errorEvents busyThread
  ∧ listeners t' = listeners busyThread.
Proof.
  apply (call_and_answer busyThread "helloWorld" [] "uid-2"
           (TaskResult "uid-2" (JsString "Hello World!"))
           (Resolve (JsString "Hello World!"))).
  - apply busyThread_reachable.
  - reflexivity.
  - reflexivity.
  - by eexists.
  - reflexivity.
  - reflexivity.
Defined.

(** ** A UID given twice *)

Lemma orphan_turn r e t : Inv t → orphan r t → orphan r (turn e t).
Proof.
  intros Hinv [Hp Hk]. unfold orphan. destruct (spawned t) eqn:Hs.
  2:{ pose proof (turn_returned e t Hinv Hs) as Ht.
      destruct Hinv as [HH [Hw HL]].
      returned_cases Ht HH Hw; simpl; try done.
      - split.
        + rewrite list_lookup_insert_ne; [done|]. by eapply Hk.
        + intros u k [_ Hu]%lookup_delete_Some. by eapply Hk.
      - pose proof (lookup_lt_Some _ _ _ Hp) as Hlt. split.
        + by rewrite lookup_app_l.
        + intros u k. rewrite lookup_insert. case_decide.
          * intros [= <-]. simpl. lia.
          * apply Hk.
      - by destruct (worker t). }
  all: destruct (turn_unreturned e t Hinv) as (_ & _ & E1 & E2 & _);
    [by rewrite Hs|by rewrite E1, E2].
Qed.

Lemma orphan_run r es t : Inv t → orphan r t → orphan r (run es t).
Proof.
  revert t. induction es as [|e es IH]; intros t Hinv Ho; [done|].
  simpl. change (foldl _ (turn e t) es) with (run es (turn e t)).
  apply IH; [by apply Inv_turn|by apply orphan_turn].
Qed.

(** X11.  A proxy call that is given the UID of a pending task takes the
    entry of that task: the count does not move although a promise is added,
    and the promise of the earlier task stays pending whatever happens, no
    entry leading to it any more. *)
Theorem uid_collision_orphans (t : EsThread) (name : string)
    (rawArgs : list JsValue) (uid : TaskUID) (old : EsTaskPromise) :
  reachable t → is_Some (methods t !! name) → tasks t !! uid = Some old →
  let t1 := turn (Invoke name rawArgs uid) t in
  numQueuedTasks t1 = numQueuedTasks t
  ∧ length (promises t1) = S (length (promises t))
  ∧ tasks t1 !! uid
    = Some {| taskUID := uid; promiseRef := length (promises t) |}
  ∧ promiseRef old ≠ length (promises t)
  ∧ ∀ es, promises (run es t1) !! promiseRef old = Some Pending
          ∧ ∀ u k, tasks (run es t1) !! u = Some k →
                   promiseRef k ≠ promiseRef old.
Proof.
  intros Hr [p Hm] Hu t1.
  pose proof (has_task_returned _ _ _ Hr Hu) as Hs.
  pose proof (reachable_Inv _ Hr) as Hinv. pose proof Hinv as [HH HL].
  pose proof (turn_call name p rawArgs uid t HL Hs Hm) as E1.
  pose proof (inv_pending t HH _ _ Hu) as Hp.
  pose proof (lookup_lt_Some _ _ _ Hp) as Hlt.
  split_and!.
  - unfold t1, numQueuedTasks. rewrite E1. simpl.
    by rewrite map_size_insert, Hu.
  - unfold t1. rewrite E1. simpl. rewrite length_app. simpl. lia.
  - unfold t1. rewrite E1. simpl. by rewrite lookup_insert_eq.
  - lia.
  - intros es. apply orphan_run; [by apply Inv_turn|].
    unfold orphan, t1. rewrite E1. simpl. split.
    + by rewrite lookup_app_l.
    + intros u k. rewrite lookup_insert. case_decide.
      * intros [= <-]. simpl. lia.
      * intros Hk E. apply H. symmetry. by eapply (inv_inj t HH).
Qed.

Lemma uid_collision_orphans_witness :
  let t1 := turn (Invoke "helloWorld" [] "uid-1") busyThread in
  numQueuedTasks t1 = numQueuedTasks busyThread
  ∧ length (promises t1) = S (length (promises busyThread))
  ∧ tasks t1 !! "uid-1"
    = Some {| taskUID := "uid-1"; promiseRef := length (promises busyThread) |}
  ∧ promiseRef {| taskUID := "uid-1"; promiseRef := 0 |}
    ≠ length (promises busyThread)
  ∧ ∀ es, promises (run es t1)
            !! promiseRef {| taskUID := "uid-1"; promiseRef := 0 |}
          = Some Pending
          ∧ ∀ u k, tasks (run es t1) !! u = Some k →
                   promiseRef k
                   ≠ promiseRef {| taskUID := "uid-1"; promiseRef := 0 |}.
Proof.
  apply (uid_collision_orphans busyThread "helloWorld" [] "uid-1"
           {| taskUID := "uid-1"; promiseRef := 0 |}).
  - apply busyThread_reachable.
  - by eexists.
  - reflexivity.
Defined.

(** ** A call after [terminate] *)

(** X12.  The proxies outlive the channel: a call made on a thread whose
    channel is closed still posts its Run message and is counted as pending,
    and its promise never settles. *)
Theorem call_after_terminate (t : EsThread) (name : string)
    (rawArgs : list JsValue) (uid : TaskUID) :
  reachable t → spawned t = SpawnReturned → channelClosed t = true →
  is_Some (methods t !! name) →
  let t1 := turn (Invoke name rawArgs uid) t in
  posted t1 = posted t ++ [(Run uid name rawArgs, transferList rawArgs)]
  ∧ tasks t1 !! uid
    = Some {| taskUID := uid; promiseRef := length (promises t) |}
  ∧ 0 < numQueuedTasks t1
  ∧ ∀ es, promises (run es t1) !! length (promises t) = Some Pending.
Proof.
  intros Hr Hs Hc [p Hm] t1.
  pose proof (reachable_Inv _ Hr) as Hinv. pose proof Hinv as [HH HL].
  pose proof (turn_call name p rawArgs uid t HL Hs Hm) as E1.
  assert (listeners t = []) as Hl.
  { destruct (reachable_closedWhenFinished t Hr Hs) as [_ H].
    rewrite Hc in H. apply H. }
  assert (tasks t1 !! uid
          = Some {| taskUID := uid; promiseRef := length (promises t) |}) as Hu.
  { unfold t1. rewrite E1. simpl. by rewrite lookup_insert_eq. }
  split_and!; [by unfold t1; rewrite E1|done| |].
  - unfold numQueuedTasks. destruct (size (tasks t1)) eqn:E; [|lia].
    apply map_size_empty_inv in E. by rewrite E in Hu.
  - intros es.
    destruct (deaf_run es t1) as (_ & _ & _ & D4);
      [by apply Inv_turn|by unfold t1; rewrite E1|by unfold t1; rewrite E1|].
    apply D4. unfold t1. rewrite E1. simpl.
    rewrite lookup_app_r by done. by rewrite Nat.sub_diag.
Qed.

Lemma call_after_terminate_witness :
  let t := run [CallTerminate None; Resume 0] readyThread in
  let t1 := turn (Invoke "helloWorld" [] "uid-3") t in
  posted t1 = posted t ++ [(Run "uid-3" "helloWorld" [], transferList [])]
  ∧ tasks t1 !! "uid-3"
    = Some {| taskUID := "uid-3"; promiseRef := length (promises t) |}
  ∧ 0 < numQueuedTasks t1
  ∧ ∀ es, promises (run es t1) !! length (promises t) = Some Pending.
Proof.
  apply (call_after_terminate
           (run [CallTerminate None; Resume 0] readyThread)
           "helloWorld" [] "uid-3").
  - apply reachable_run, readyThread_reachable.
  - reflexivity.
  - reflexivity.
  - by eexists.
Defined.

(** ** A handshake that fails *)



(** ** The init listener *)




(** ** Error events *)

Lemma errorEvents_turn e t :
  Inv t →
  errorEvents (turn e t) = errorEvents t
  ∨ ∃ evt err, e = Deliver evt ∧ faultOf t evt = Some err
               ∧ turn e t = set_errorEvents (λ log, log ++ [err]) t.
Proof.
  intros Hinv. destruct (spawned t) eqn:Hs.
  2:{ pose proof (turn_returned e t Hinv Hs) as Ht.
      destruct Hinv as [HH [Hw HL]].
      returned_cases Ht HH Hw; simpl; try by left.
      - right. by exists evt_, err_.
      - left. by destruct (worker t). }
  all: destruct (turn_unreturned e t Hinv) as (_ & E & _);
    [by rewrite Hs|by left].
Qed.

(** X15.  Error events are only added, only in a turn that dispatches an
    event of the channel and one at most in such a turn; the turn that adds
    one is a fault of the result listener and changes nothing else: no task,
    no promise, nothing posted. *)
Theorem error_events_from_events (t : EsThread) (es : list Turn) :
  reachable t →
  errorEvents t `prefix_of` errorEvents (run es t)
  ∧ length (errorEvents (run es t))
    ≤ length (errorEvents t) + length (filter (λ e, isDeliver e = true) es)
  ∧ (∀ e, errorEvents (turn e t) ≠ errorEvents t →
       ∃ evt err, e = Deliver evt ∧ faultOf t evt = Some err
                  ∧ errorEvents (turn e t) = errorEvents t ++ [err]
                  ∧ tasks (turn e t) = tasks t
                  ∧ promises (turn e t) = promises t
                  ∧ posted (turn e t) = posted t).
Proof.
  intros Hr. pose proof (reachable_Inv _ Hr) as Hinv. split_and!.
  - clear Hr. revert t Hinv. induction es as [|e es IH]; intros t Hinv; [done|].
    simpl. change (foldl _ (turn e t) es) with (run es (turn e t)).
    etrans; [|apply IH; by apply Inv_turn].
    destruct (errorEvents_turn e t Hinv) as [->|(evt & err & _ & _ & ->)];
      [done|]. simpl. by apply prefix_app_r.
  - clear Hr. revert t Hinv. induction es as [|e es IH]; intros t Hinv;
      [simpl; lia|].
    simpl. change (foldl _ (turn e t) es) with (run es (turn e t)).
    specialize (IH (turn e t) (Inv_turn e t Hinv)).
    rewrite filter_cons.
    destruct (errorEvents_turn e t Hinv) as [E|(evt & err & -> & _ & E)].
    + rewrite E in IH. case_decide; simpl; lia.
    + rewrite E in IH |- *. simpl in IH. rewrite length_app in IH. simpl in *.
      lia.
  - intros e Hne.
    destruct (errorEvents_turn e t Hinv) as [E|(evt & err & -> & Hf & E)];
      [done|].
    exists evt, err. by rewrite E.
Qed.

Lemma error_events_from_events_witness :
  let es := [Deliver (MessageEvent (TaskResult "uid-9" JsUndefined));
             CallSettled;
             Deliver (MessageEvent (TaskResult "uid-1" JsUndefined));
             Deliver (MessageEvent (UnchaughtError "boom"))] in
  errorEvents (run es busyThread)
  = [Error "Recived result for invalid task with UID uid-9";
     Error "Uncaught error in worker: boom"]
  ∧ (errorEvents busyThread `prefix_of` errorEvents (run es busyThread)
     ∧ length (errorEvents (run es busyThread))
       ≤ length (errorEvents busyThread)
         + length (filter (λ e, isDeliver e = true) es)
     ∧ (∀ e, errorEvents (turn e busyThread) ≠ errorEvents busyThread →
          ∃ evt err, e = Deliver evt ∧ faultOf busyThread evt = Some err
                     ∧ errorEvents (turn e busyThread)
                       = errorEvents busyThread ++ [err]
                     ∧ tasks (turn e busyThread) = tasks busyThread
                     ∧ promises (turn e busyThread) = promises busyThread
                     ∧ posted (turn e busyThread) = posted busyThread)).
Proof.
  cbv zeta. split; [reflexivity|].
  apply (error_events_from_events busyThread). apply busyThread_reachable.
Defined.
